(** * koishi-plugin-symmetry: frame reconstruction and mirror compositing

    A shallow embedding of [src/index.tsx]: the typed-array primitives the
    reconstructor relies on, the disposal-aware loop [buildFullFrames] over
    a store of mutable arrays, the mirror compositor [drawSymmetry] over a
    2D drawing surface, and the two pipelines [generateGif] and
    [generateStatic]. *)

From Stdlib Require Import ZArith Lia Ascii.
From stdpp Require Import base decidable option numbers list strings.

Open Scope nat_scope.

(** ** Bytes and typed arrays

    A [Uint8ClampedArray] holds bytes; its contents are a [list byte].
    Offsets, lengths and frame dimensions are the unsigned fields of the
    GIF container, hence [nat]. *)

Abbreviation byte := Byte.byte (only parsing).
Abbreviation x00 := Byte.x00.
Abbreviation xff := Byte.xff.

(** Errors thrown by the code and by the typed-array primitives. *)
Inductive JsError :=
  | RangeError          (* TypedArray.prototype.set: source does not fit *)
  | InvalidImageSize.   (* new Error("invalid image size") *)

Inductive Result (A : Type) :=
  | Ok (a : A)
  | Throw (e : JsError).
Arguments Ok {A} a.
Arguments Throw {A} e.

(** [target.fill(v, start, end)] on the contents: the indices in
    [start, end) that exist are overwritten, the others are ignored. *)
Definition fill_bytes (v : byte) (start end_ : nat) (t : list byte) : list byte :=
  list_inserts start (replicate (end_ - start) v) t.

(** [t.subarray(begin, end)]: both bounds are clamped to the length. *)
Definition subarray (t : list byte) (begin end_ : nat) : list byte :=
  take (end_ - begin) (drop begin t).

(** [target.set(source, offset)] on the contents: a [RangeError] when the
    source does not fit at that offset, nothing is written in that case. *)
Definition set_bytes (source : list byte) (offset : nat) (t : list byte)
  : Result (list byte) :=
  if decide (offset + length source ≤ length t)
  then Ok (list_inserts offset source t)
  else Throw RangeError.

(** ** The store of arrays

    Arrays are mutable objects: a reference is the allocation index in the
    store, and two names for one array see each other's writes. *)

Abbreviation ref := nat (only parsing).
Abbreviation Heap := (list (list byte)) (only parsing).

Definition contents (h : Heap) (r : ref) : list byte := h !!! r.

Definition Js (A : Type) : Type := Heap → Result (A * Heap).

(** The monad of the code: a computation reads and writes the store and
    either returns or throws. *)
#[global] Instance Js_ret : MRet Js := λ A a h, Ok (a, h).

#[global] Instance Js_bind : MBind Js := λ A B k m h,
  match m h with
  | Ok (a, h') => k a h'
  | Throw e => Throw e
  end.

(** [for (const x of xs) { s = body(s, x) }] *)
Fixpoint for_each {S A} (body : S → A → Js S) (s : S) (xs : list A) : Js S :=
  match xs with
  | [] => mret s
  | x :: xs' => s' ← body s x; for_each body s' xs'
  end.

(** [for (let y = 0; y < n; y++) body(y)] *)
Definition for_range (n : nat) (body : nat → Js unit) : Js unit :=
  for_each (λ _ y, body y) tt (seq 0 n).

(** [new Uint8ClampedArray(n)]: a fresh zero-filled array. *)
Definition new_array (n : nat) : Js ref :=
  λ h, Ok (length h, h ++ [replicate n x00]).

(** [new Uint8ClampedArray(source)]: a fresh array with a copy of the
    elements of [source]. *)
Definition copy_array (source : ref) : Js ref :=
  λ h, Ok (length h, h ++ [contents h source]).

Definition ta_fill (target : ref) (v : byte) (start end_ : nat) : Js unit :=
  λ h, Ok (tt, <[target := fill_bytes v start end_ (contents h target)]> h).

Definition ta_set (target : ref) (source : list byte) (offset : nat) : Js unit :=
  λ h, match set_bytes source offset (contents h target) with
       | Ok t => Ok (tt, <[target := t]> h)
       | Throw e => Throw e
       end.

(** [target.set(source)] where the source is itself an array of the store. *)
Definition ta_set_from (target source : ref) : Js unit :=
  λ h, ta_set target (contents h source) 0 h.

(** ** Decoded frames *)

Module Dims.
Record t := mk { left : nat; top : nat; width : nat; height : nat }.
End Dims.
Abbreviation FrameDims := Dims.t.

Module Frame.
(** [disposalType] is optional in the source type; [patch] is the RGBA
    buffer of the frame, only ever read by the reconstructor (on a buffer
    of bytes the conversion of lines 293-296 changes nothing). *)
Record t := mk {
  delay : Z;
  disposalType : option nat;
  dims : FrameDims;
  patch : list byte
}.
End Frame.
Abbreviation DecodedFrame := Frame.t.

(** ** The reconstructor *)

Definition clearRectPixels (target : ref) (dims : FrameDims) (width : nat)
  : Js unit :=
  for_range (Dims.height dims) (λ y,
    let offset := ((Dims.top dims + y) * width + Dims.left dims) * 4 in
    ta_fill target x00 offset (offset + Dims.width dims * 4)).

Definition applyPatch (target : ref) (patch : list byte) (dims : FrameDims)
    (width : nat) : Js unit :=
  let rowSize := Dims.width dims * 4 in
  for_range (Dims.height dims) (λ y,
    let srcOffset := y * rowSize in
    let destOffset := ((Dims.top dims + y) * width + Dims.left dims) * 4 in
    ta_set target (subarray patch srcOffset (srcOffset + rowSize)) destOffset).

(** The variables of the loop of [buildFullFrames]; an emitted frame is the
    object [{ data, delay }], its [data] a reference into the store. *)
Record LoopVars := mkVars {
  fullFrames : list (ref * Z);
  prevDisposal : nat;
  prevRect : option FrameDims;
  restoreSnapshot : option ref
}.

Definition initVars : LoopVars :=
  {| fullFrames := []; prevDisposal := 0; prevRect := None;
     restoreSnapshot := None |}.

(** Lines 297-301: the disposal left pending by the previous frame. *)
Definition applyDisposal (canvas : ref) (width : nat) (v : LoopVars) : Js unit :=
  match prevDisposal v =? 2, prevRect v with
  | true, Some rect => clearRectPixels canvas rect width
  | _, _ =>
      match prevDisposal v =? 3, restoreSnapshot v with
      | true, Some snapshot => ta_set_from canvas snapshot
      | _, _ => mret tt
      end
  end.

(** Lines 303-306: [nextRestore]. *)
Definition takeSnapshot (canvas : ref) (frame : DecodedFrame) : Js (option ref) :=
  if decide (Frame.disposalType frame = Some 3)
  then r ← copy_array canvas; mret (Some r)
  else mret None.

(** Lines 308-312: the patch goes onto the canvas. *)
Definition composite (canvas : ref) (width height : nat) (frame : DecodedFrame)
  : Js unit :=
  let patch := Frame.patch frame in
  if decide (length patch = width * height * 4)
  then ta_set canvas patch 0
  else applyPatch canvas patch (Frame.dims frame) width.

(** One iteration of the loop, lines 292-318. *)
Definition frameStep (canvas : ref) (width height : nat) (v : LoopVars)
    (frame : DecodedFrame) : Js LoopVars :=
  applyDisposal canvas width v ;;
  nextRestore ← takeSnapshot canvas frame;
  composite canvas width height frame ;;
  data ← copy_array canvas;
  mret {| fullFrames := fullFrames v ++ [(data, Frame.delay frame)];
         prevDisposal := default 0 (Frame.disposalType frame);
         prevRect := Some (Frame.dims frame);
         restoreSnapshot := nextRestore |}.

(** The canvas allocation and the loop, keeping the canvas reference and the
    loop variables in view. *)
Definition buildLoop (frames : list DecodedFrame) (width height : nat)
  : Js (ref * LoopVars) :=
  canvas ← new_array (width * height * 4);
  v ← for_each (frameStep canvas width height) initVars frames;
  mret (canvas, v).

Definition buildFullFrames (frames : list DecodedFrame) (width height : nat)
  : Js (list (ref * Z)) :=
  cv ← buildLoop frames width height;
  mret (fullFrames cv.2).

(** What a caller reads from the returned frames once [buildFullFrames] has
    returned: each [data] array as it is in the final store. *)
Definition resolve (h : Heap) (frames : list (ref * Z)) : list (list byte * Z) :=
  map (λ f, (contents h f.1, f.2)) frames.

Definition reconstruct (frames : list DecodedFrame) (width height : nat)
  : Result (list (list byte * Z)) :=
  match buildFullFrames frames width height [] with
  | Ok (fs, h) => Ok (resolve h fs)
  | Throw e => Throw e
  end.

(** ** The contents view of the reconstructor

    The same loop on array contents alone, with no store: what each step
    does to the bytes of the canvas.  [buildLoop] is shown below to follow
    this machine step by step, its arrays holding exactly these contents. *)

#[global] Instance Result_ret : MRet Result := λ A a, Ok a.

#[global] Instance Result_bind : MBind Result := λ A B k m,
  match m with
  | Ok a => k a
  | Throw e => Throw e
  end.

#[global] Instance Result_fmap : FMap Result := λ A B f m,
  match m with
  | Ok a => Ok (f a)
  | Throw e => Throw e
  end.

Fixpoint foldl_result {S A} (f : S → A → Result S) (s : S) (xs : list A)
  : Result S :=
  match xs with
  | [] => Ok s
  | x :: xs' => s' ← f s x; foldl_result f s' xs'
  end.

Definition rowOffset (dims : FrameDims) (width y : nat) : nat :=
  ((Dims.top dims + y) * width + Dims.left dims) * 4.

Definition clearRows (dims : FrameDims) (width : nat) (t : list byte)
  : list byte :=
  foldl (λ t y, fill_bytes x00 (rowOffset dims width y)
                  (rowOffset dims width y + Dims.width dims * 4) t)
        t (seq 0 (Dims.height dims)).

Definition patchRow (patch : list byte) (dims : FrameDims) (y : nat)
  : list byte :=
  subarray patch (y * (Dims.width dims * 4))
           (y * (Dims.width dims * 4) + Dims.width dims * 4).

Definition patchRows (patch : list byte) (dims : FrameDims) (width : nat)
    (t : list byte) : Result (list byte) :=
  foldl_result (λ t y, set_bytes (patchRow patch dims y)
                         (rowOffset dims width y) t)
               t (seq 0 (Dims.height dims)).

Record Contents := mkContents {
  c_canvas : list byte;
  c_emitted : list (list byte * Z);
  c_prevDisposal : nat;
  c_prevRect : option FrameDims;
  c_snapshot : option (list byte)
}.

Definition initContents (width height : nat) : Contents :=
  {| c_canvas := replicate (width * height * 4) x00; c_emitted := [];
     c_prevDisposal := 0; c_prevRect := None; c_snapshot := None |}.

Definition disposedBytes (width : nat) (c : Contents) : Result (list byte) :=
  match c_prevDisposal c =? 2, c_prevRect c with
  | true, Some rect => Ok (clearRows rect width (c_canvas c))
  | _, _ =>
      match c_prevDisposal c =? 3, c_snapshot c with
      | true, Some snapshot => set_bytes snapshot 0 (c_canvas c)
      | _, _ => Ok (c_canvas c)
      end
  end.

Definition compositeBytes (width height : nat) (frame : DecodedFrame)
    (t : list byte) : Result (list byte) :=
  if decide (length (Frame.patch frame) = width * height * 4)
  then set_bytes (Frame.patch frame) 0 t
  else patchRows (Frame.patch frame) (Frame.dims frame) width t.

Definition contentsStep (width height : nat) (c : Contents)
    (frame : DecodedFrame) : Result Contents :=
  disposed ← disposedBytes width c;
  drawn ← compositeBytes width height frame disposed;
  mret {| c_canvas := drawn;
          c_emitted := c_emitted c ++ [(drawn, Frame.delay frame)];
          c_prevDisposal := default 0 (Frame.disposalType frame);
          c_prevRect := Some (Frame.dims frame);
          c_snapshot := if decide (Frame.disposalType frame = Some 3)
                        then Some disposed else None |}.

Definition contentsRun (frames : list DecodedFrame) (width height : nat)
  : Result Contents :=
  foldl_result (contentsStep width height) (initContents width height) frames.

(** ** The drawing surface

    The canvas context is an external capability ([canvasCtx: any] in the
    source).  A surface is its bitmap: [s_width * s_height] RGBA pixels in
    row-major order.  Numbers handed to the context are JavaScript numbers
    and may be negative, hence [Z]. *)

Record Pixel := rgba { red : byte; green : byte; blue : byte; alpha : byte }.

Definition transparent : Pixel := rgba x00 x00 x00 x00.

Record Surface := mkSurface {
  s_width : nat;
  s_height : nat;
  s_pixels : list Pixel
}.

(** [createCanvas(width, height)]: a transparent bitmap. *)
Definition createCanvas (width height : nat) : Surface :=
  mkSurface width height (replicate (width * height) transparent).

Definition getPixel (s : Surface) (x y : Z) : option Pixel :=
  if ((0 <=? x) && (x <? Z.of_nat (s_width s)) &&
      (0 <=? y) && (y <? Z.of_nat (s_height s)))%Z
  then s_pixels s !! Z.to_nat (y * Z.of_nat (s_width s) + x)
  else None.

Definition pixelAt (s : Surface) (x y : nat) : option Pixel :=
  getPixel s (Z.of_nat x) (Z.of_nat y).

Definition inSpan (start extent v : Z) : bool :=
  ((Z.min start (start + extent) <=? v) &&
   (v <? Z.max start (start + extent)))%Z.

(** Modelled from the spec: the drawing surface is an external capability,
    absent from the sources.  Section 4.2 has every reflected copy drawn
    flipped across its axis; [drawSymmetry] asks for it with a negative
    destination width or height, so a negative extent [d] runs the
    destination span backwards from its origin and the source appears
    mirrored in it.  [sample s d k] is the source offset drawn at the [k]-th
    cell of a destination span of [|d|] cells taken from [s] source cells.
    Every call of [drawSymmetry] has [|d| = s], where this is a one-to-one
    copy and no resampling rule is involved. *)
Definition sample (s d k : Z) : Z :=
  let u := (k * s / Z.abs d)%Z in
  if (d <? 0)%Z then (s - 1 - u)%Z else u.

Definition ceilHalf (n : Z) : Z := ((n + 1) / 2)%Z.

Inductive Direction := Left | Right | Up | Down | Both.

Section Canvas2D.

(** Source-over compositing of one pixel onto another, as the platform
    computes it; only the shape of the drawing calls matters here. *)
Variable over : Pixel → Pixel → Pixel.

Definition mapPixels (f : Z → Z → Pixel → Pixel) (ctx : Surface) : Surface :=
  mkSurface (s_width ctx) (s_height ctx)
    (imap (λ i old, f (Z.of_nat (i mod s_width ctx))
                      (Z.of_nat (i / s_width ctx)) old)
          (s_pixels ctx)).

(** [ctx.clearRect(x, y, w, h)] *)
Definition clearRect (ctx : Surface) (x y w h : Z) : Surface :=
  mapPixels (λ px py old,
    if inSpan x w px && inSpan y h py then transparent else old) ctx.

(** What a drawing call leaves in one cell: the source pixel composited
    over the old one, or the old one where the source has no pixel. *)
Definition paint (p : option Pixel) (old : Pixel) : Pixel :=
  match p with
  | Some p => over p old
  | None => old
  end.

(** Modelled from the spec: the cell [(px, py)] of the destination after
    [drawImage(source, sx, sy, sw, sh, dx, dy, dw, dh)] of the external
    drawing surface.  Cells of the destination rectangle receive the sampled
    source pixel; an empty source rectangle draws nothing. *)
Definition drawCell (source : Surface) (sx sy sw sh dx dy dw dh : Z)
    (px py : Z) (old : Pixel) : Pixel :=
  if ((0 <? sw) && (0 <? sh))%Z && inSpan dx dw px && inSpan dy dh py
  then paint (getPixel source
                (sx + sample sw dw (px - Z.min dx (dx + dw)))
                (sy + sample sh dh (py - Z.min dy (dy + dh))))
             old
  else old.

(** [ctx.drawImage(source, sx, sy, sw, sh, dx, dy, dw, dh)], cell by cell
    as [drawCell] has it. *)
Definition drawImage (ctx source : Surface) (sx sy sw sh dx dy dw dh : Z)
  : Surface :=
  mapPixels (drawCell source sx sy sw sh dx dy dw dh) ctx.

Definition drawSymmetry (canvasCtx source : Surface) (width height : Z)
    (direction : Direction) : Surface :=
  let ctx := clearRect canvasCtx 0 0 width height in
  match direction with
  | Left =>
      let baseWidth := ceilHalf width in
      let ctx := drawImage ctx source 0 0 baseWidth height
                           0 0 baseWidth height in
      drawImage ctx source 0 0 baseWidth height
                width 0 (- baseWidth) height
  | Right =>
      let baseWidth := ceilHalf width in
      let srcX := (width - baseWidth)%Z in
      let ctx := drawImage ctx source srcX 0 baseWidth height
                           srcX 0 baseWidth height in
      drawImage ctx source srcX 0 baseWidth height
                baseWidth 0 (- baseWidth) height
  | Up =>
      let baseHeight := ceilHalf height in
      let ctx := drawImage ctx source 0 0 width baseHeight
                           0 0 width baseHeight in
      drawImage ctx source 0 0 width baseHeight
                0 height width (- baseHeight)
  | Down =>
      let baseHeight := ceilHalf height in
      let srcY := (height - baseHeight)%Z in
      let ctx := drawImage ctx source 0 srcY width baseHeight
                           0 srcY width baseHeight in
      drawImage ctx source 0 srcY width baseHeight
                0 baseHeight width (- baseHeight)
  | Both =>
      let baseWidth := ceilHalf width in
      let baseHeight := ceilHalf height in
      let ctx := drawImage ctx source 0 0 baseWidth baseHeight
                           0 0 baseWidth baseHeight in
      let ctx := drawImage ctx source 0 0 baseWidth baseHeight
                           width 0 (- baseWidth) baseHeight in
      let ctx := drawImage ctx source 0 0 baseWidth baseHeight
                           0 height baseWidth (- baseHeight) in
      drawImage ctx source 0 0 baseWidth baseHeight
                width height (- baseWidth) (- baseHeight)
  end.

(** *** The static pipeline *)

(** What [loadImage] hands back: the size fields may be absent. *)
Record Image := mkImage {
  naturalWidth : option nat;
  naturalHeight : option nat;
  imageWidth : option nat;
  imageHeight : option nat;
  bitmap : Surface
}.

(** [a ?? b ?? 0] *)
Definition coalesce (a b : option nat) : nat :=
  match a with
  | Some n => n
  | None => default 0 b
  end.

Definition getImageSize (image : Image) : Result (nat * nat) :=
  let width := coalesce (naturalWidth image) (imageWidth image) in
  let height := coalesce (naturalHeight image) (imageHeight image) in
  if (width =? 0) || (height =? 0) then Throw InvalidImageSize
  else Ok (width, height).

(** The calls [generateStatic] makes on the canvas service after the image
    is loaded, in order. *)
Inductive StaticCall :=
  | CallCreateCanvas (width height : nat)
  | CallDrawSymmetry (result : Surface)
  | CallToBuffer (encoded : Surface).

Definition generateStatic (image : Image) (direction : Direction)
  : list StaticCall * Result Surface :=
  match getImageSize image with
  | Throw e => ([], Throw e)
  | Ok (width, height) =>
      let canvas := createCanvas width height in
      let drawn := drawSymmetry canvas (bitmap image)
                     (Z.of_nat width) (Z.of_nat height) direction in
      ([CallCreateCanvas width height; CallDrawSymmetry drawn;
        CallToBuffer drawn], Ok drawn)
  end.

(** *** The animation pipeline *)

Fixpoint pixelsOfBytes (data : list byte) : list Pixel :=
  match data with
  | r :: g :: b :: a :: rest => rgba r g b a :: pixelsOfBytes rest
  | _ => []
  end.

(** [ctx.putImageData(imageData, 0, 0)] for image data of
    [width * height] pixels: the pixels replace those of the bitmap. *)
Definition putImageData (ctx : Surface) (width height : nat)
    (data : list byte) : Surface :=
  mapPixels (λ px py old,
    if ((px <? Z.of_nat width) && (py <? Z.of_nat height))%Z
    then default old (pixelsOfBytes data
                        !! Z.to_nat (py * Z.of_nat width + px))
    else old) ctx.

(** Calls received by the animated-image writer; [addFrame] reads the
    bitmap of the context it is given when it is called. *)
Inductive EncoderCall :=
  | EncNew (width height : nat)
  | EncStart
  | EncSetRepeat (n : Z)
  | EncSetQuality (q : Z)
  | EncSetDelay (ms : Z)
  | EncAddFrame (bitmap : Surface)
  | EncFinish.

(** [Math.max(0, Math.round((frame.delay || 0) * 10))] on an integer
    delay, where [|| 0] and [Math.round] change nothing. *)
Definition delayMs (delay : Z) : Z := Z.max 0 (delay * 10).

Record GifState := mkGifState {
  imageData : list byte;
  frameCanvas : Surface;
  outputCtx : Surface;
  encoder : list EncoderCall
}.

(** Lines 348-356, one iteration. *)
Definition encodeFrame (width height : nat) (direction : Direction)
    (st : GifState) (frame : list byte * Z) : Result GifState :=
  data ← set_bytes frame.1 0 (imageData st);
  let frameCtx := putImageData (frameCanvas st) width height data in
  let drawn := drawSymmetry (outputCtx st) frameCtx
                 (Z.of_nat width) (Z.of_nat height) direction in
  mret {| imageData := data; frameCanvas := frameCtx; outputCtx := drawn;
          encoder := encoder st ++
                     [EncSetDelay (delayMs frame.2); EncAddFrame drawn] |}.

(** [generateGif] from the parsed container on: its logical screen size
    and its decompressed frames. *)
Definition generateGif (frames : list DecodedFrame) (width height : nat)
    (direction : Direction) : Result (list EncoderCall) :=
  fullFrames ← reconstruct frames width height;
  st ← foldl_result (encodeFrame width height direction)
         {| imageData := replicate (width * height * 4) x00;
            frameCanvas := createCanvas width height;
            outputCtx := createCanvas width height;
            encoder := [EncNew width height; EncStart; EncSetRepeat 0;
                        EncSetQuality 10] |}
         fullFrames;
  mret (encoder st ++ [EncFinish]).

End Canvas2D.

(** ** Vocabulary of the statements *)

(** [sim canvas h v c]: in store [h] the canvas array holds [c_canvas c],
    every emitted frame and the snapshot are arrays of their own, distinct
    from the canvas, holding the contents recorded in [c]. *)
Record sim (canvas : ref) (h : Heap) (v : LoopVars) (c : Contents) : Prop := {
  sim_canvas : h !! canvas = Some (c_canvas c);
  sim_emitted :
    Forall2 (λ rf bf, rf.1 ≠ canvas ∧ h !! rf.1 = Some bf.1 ∧ rf.2 = bf.2)
            (fullFrames v) (c_emitted c);
  sim_disposal : prevDisposal v = c_prevDisposal c;
  sim_rect : prevRect v = c_prevRect c;
  sim_snapshot :
    option_Forall2 (λ r s, r ≠ canvas ∧ h !! r = Some s)
                   (restoreSnapshot v) (c_snapshot c)
}.

(** Arrays other than the canvas keep their contents. *)
Definition preserves (canvas : ref) (h h' : Heap) : Prop :=
  ∀ r t, r ≠ canvas → h !! r = Some t → h' !! r = Some t.

(** Pixel coordinates of the byte at index [i] of a canvas [width] wide. *)
Definition byteX (width i : nat) : nat := (i / 4) mod width.
Definition byteY (width i : nat) : nat := i / 4 / width.

Definition inRect (dims : FrameDims) (x y : nat) : bool :=
  bool_decide (Dims.left dims ≤ x < Dims.left dims + Dims.width dims
               ∧ Dims.top dims ≤ y < Dims.top dims + Dims.height dims).

(** Byte [i] lies in the span written for row [y] of the rectangle. *)
Definition inRow (dims : FrameDims) (width y i : nat) : bool :=
  bool_decide (rowOffset dims width y ≤ i
               < rowOffset dims width y + Dims.width dims * 4).

(** Row [y] of the patch, as long as [subarray] makes it, ends inside a
    canvas of [size] bytes. *)
Definition rowFits (size : nat) (patch : list byte) (dims : FrameDims)
    (width y : nat) : bool :=
  bool_decide (rowOffset dims width y + length (patchRow patch dims y) ≤ size).

(** The patch of the frame can be drawn: it is a whole canvas, or all of its
    rows fit. *)
Definition patchFits (width height : nat) (frame : DecodedFrame) : bool :=
  bool_decide (length (Frame.patch frame) = width * height * 4)
  || forallb (rowFits (width * height * 4) (Frame.patch frame)
                (Frame.dims frame) width)
             (seq 0 (Dims.height (Frame.dims frame))).

(** Every array the loop holds has the size of the canvas. *)
Record wfContents (width height : nat) (c : Contents) : Prop := {
  wf_canvas : length (c_canvas c) = width * height * 4;
  wf_emitted : Forall (λ bf, length bf.1 = width * height * 4) (c_emitted c);
  wf_snapshot : ∀ s, c_snapshot c = Some s → length s = width * height * 4
}.

Definition redBytes : list byte := [xff; x00; x00; xff].
Definition blueBytes : list byte := [x00; x00; xff; xff].
Definition clearBytes : list byte := [x00; x00; x00; x00].

(** The two-frame animation of the specification: a red 2x2 frame, then a
    blue pixel at (1,1) to be disposed to background. *)
Definition redFrame : DecodedFrame :=
  Frame.mk 5 (Some 0) (Dims.mk 0 0 2 2)
           (redBytes ++ redBytes ++ redBytes ++ redBytes).
Definition bluePatch : DecodedFrame :=
  Frame.mk 3 (Some 2) (Dims.mk 1 1 1 1) blueBytes.

(** A red 1x1 frame to be restored to previous, then a blue one. *)
Definition restoreFrame : DecodedFrame :=
  Frame.mk 10 (Some 3) (Dims.mk 0 0 1 1) redBytes.
Definition keepFrame : DecodedFrame :=
  Frame.mk 10 (Some 1) (Dims.mk 0 0 1 1) blueBytes.

(** A frame whose rectangle, two pixels wide from column 1, passes the right
    edge of a 2x2 canvas, to be disposed to background; and a patch of six
    bytes for a rectangle of one column and two rows. *)
Definition wideFrame : DecodedFrame :=
  Frame.mk 1 (Some 2) (Dims.mk 1 0 2 1) (blueBytes ++ blueBytes).
Definition shortFrame : DecodedFrame :=
  Frame.mk 1 (Some 0) (Dims.mk 0 0 1 2) (blueBytes ++ [x00; xff]).

(** A frame without a disposal method, and the same frame with method 0. *)
Definition withDisposal (frame : DecodedFrame) (d : option nat) : DecodedFrame :=
  Frame.mk (Frame.delay frame) d (Frame.dims frame) (Frame.patch frame).

(** The cell [(x, y)] after [drawSymmetry] to the left: the base copy when
    [x] is in the base, then the reflected copy on the last [baseWidth]
    columns. *)
Definition leftPixel (over : Pixel → Pixel → Pixel) (source : Surface)
    (width x y : nat) : Pixel :=
  let baseWidth := (width + 1) / 2 in
  let base := if bool_decide (x < baseWidth)
              then paint over (pixelAt source x y) transparent
              else transparent in
  if bool_decide (width - baseWidth ≤ x)
  then paint over (pixelAt source (width - 1 - x) y) base
  else base.

Definition pixelA : Pixel := rgba xff x00 x00 xff.
Definition pixelB : Pixel := rgba x00 xff x00 xff.
Definition pixelC : Pixel := rgba x00 x00 xff xff.

(** Compositing an opaque pixel replaces what was there. *)
Definition overOpaque (p old : Pixel) : Pixel := p.

(** A bitmap of [width] by [height] pixels. *)
Definition wfSurface (width height : nat) (s : Surface) : Prop :=
  s_width s = width ∧ s_height s = height
  ∧ length (s_pixels s) = width * height.

(** The scratch surface holding one reconstructed frame, and its mirrored
    image on a fresh output surface. *)
Definition frameSurface (width height : nat) (data : list byte) : Surface :=
  mkSurface width height (pixelsOfBytes data).

Definition mirrorFrame (over : Pixel → Pixel → Pixel) (width height : nat)
    (direction : Direction) (data : list byte) : Surface :=
  drawSymmetry over (createCanvas width height)
    (frameSurface width height data)
    (Z.of_nat width) (Z.of_nat height) direction.

(** What the writer receives for one reconstructed frame. *)
Definition frameCalls (over : Pixel → Pixel → Pixel) (width height : nat)
    (direction : Direction) (frame : list byte * Z) : list EncoderCall :=
  [EncSetDelay (delayMs frame.2);
   EncAddFrame (mirrorFrame over width height direction frame.1)].

(** The buffers [generateGif] reuses across frames keep the size of the
    canvas. *)
Record wfGifState (width height : nat) (st : GifState) : Prop := {
  wf_imageData : length (imageData st) = width * height * 4;
  wf_frameCanvas : wfSurface width height (frameCanvas st);
  wf_outputCtx : wfSurface width height (outputCtx st)
}.

(** ** Vocabulary of the further statements *)

(** The source cells painted onto the cell [(x, y)] by [drawSymmetry], in
    the order of its drawing calls. *)
Definition paints (direction : Direction) (width height x y : nat)
  : list (nat * nat) :=
  let baseWidth := (width + 1) / 2 in
  let baseHeight := (height + 1) / 2 in
  let inLeft := bool_decide (x < baseWidth) in
  let inRight := bool_decide (width - baseWidth ≤ x) in
  let inTop := bool_decide (y < baseHeight) in
  let inBottom := bool_decide (height - baseHeight ≤ y) in
  let when (b : bool) (c : nat * nat) := if b then [c] else [] in
  match direction with
  | Left => when inLeft (x, y) ++ when inRight (width - 1 - x, y)
  | Right => when inRight (x, y) ++ when inLeft (width - 1 - x, y)
  | Up => when inTop (x, y) ++ when inBottom (x, height - 1 - y)
  | Down => when inBottom (x, y) ++ when inTop (x, height - 1 - y)
  | Both =>
      when (inLeft && inTop) (x, y)
      ++ when (inRight && inTop) (width - 1 - x, y)
      ++ when (inLeft && inBottom) (x, height - 1 - y)
      ++ when (inRight && inBottom) (width - 1 - x, height - 1 - y)
  end.

(** Painting the source pixels at [cells], one after the other, onto a
    transparent cell. *)
Definition painted (over : Pixel → Pixel → Pixel) (source : Surface)
    (cells : list (nat * nat)) : Pixel :=
  foldl (λ old c, paint over (pixelAt source c.1 c.2) old) transparent cells.

(** The region of the source a direction mirrors from. *)
Definition inBase (direction : Direction) (width height x y : nat) : bool :=
  let baseWidth := (width + 1) / 2 in
  let baseHeight := (height + 1) / 2 in
  match direction with
  | Left => bool_decide (x < baseWidth)
  | Right => bool_decide (width - baseWidth ≤ x)
  | Up => bool_decide (y < baseHeight)
  | Down => bool_decide (height - baseHeight ≤ y)
  | Both => bool_decide (x < baseWidth) && bool_decide (y < baseHeight)
  end.

(** The cell of the base that is reflected onto [(x, y)]. *)
Definition mirrorCoord (direction : Direction) (width height x y : nat)
  : nat * nat :=
  match direction with
  | Left => (x `min` (width - 1 - x), y)
  | Right => (x `max` (width - 1 - x), y)
  | Up => (x, y `min` (height - 1 - y))
  | Down => (x, y `max` (height - 1 - y))
  | Both => (x `min` (width - 1 - x), y `min` (height - 1 - y))
  end.

(** Directions that reflect across the vertical axis, and across the
    horizontal one. *)
Definition flipsColumns (direction : Direction) : bool :=
  match direction with Left | Right | Both => true | _ => false end.

Definition flipsRows (direction : Direction) : bool :=
  match direction with Up | Down | Both => true | _ => false end.

(** A bitmap all of whose pixels are opaque. *)
Definition opaque (s : Surface) : Prop :=
  Forall (λ p, alpha p = xff) (s_pixels s).

(** A 3x3 bitmap with nine different pixels. *)
Definition nineCells : Surface :=
  mkSurface 3 3
    [rgba xff x00 x00 xff; rgba x00 xff x00 xff; rgba x00 x00 xff xff;
     rgba xff xff x00 xff; rgba x00 xff xff xff; rgba xff x00 xff xff;
     rgba xff xff xff xff; rgba x00 x00 x00 xff; rgba x00 x00 x00 x00].

(** A frame as the data model has it: its rectangle lies inside the canvas
    and its patch has the size of the canvas or of the rectangle. *)
Definition frameWellFormed (width height : nat) (frame : DecodedFrame)
  : Prop :=
  let dims := Frame.dims frame in
  Dims.left dims + Dims.width dims ≤ width
  ∧ Dims.top dims + Dims.height dims ≤ height
  ∧ (length (Frame.patch frame) = width * height * 4
     ∨ length (Frame.patch frame) = Dims.width dims * Dims.height dims * 4).

(** A patch smaller than the canvas that holds every row of its rectangle,
    the rectangle lying inside the canvas. *)
Definition partialPatch (width height : nat) (frame : DecodedFrame) : Prop :=
  let dims := Frame.dims frame in
  length (Frame.patch frame) ≠ width * height * 4
  ∧ Dims.width dims * Dims.height dims * 4 ≤ length (Frame.patch frame)
  ∧ Dims.left dims + Dims.width dims ≤ width
  ∧ Dims.top dims + Dims.height dims ≤ height.

(** Byte [i] of the canvas belongs to a row of the rectangle of [frame]. *)
Definition inPatch (width : nat) (frame : DecodedFrame) (i : nat) : bool :=
  existsb (λ y, inRow (Frame.dims frame) width y i)
          (seq 0 (Dims.height (Frame.dims frame))).

(** A green 1x1 patch at (0,0) of a 2x2 canvas, to be restored to previous,
    and a blue one at (1,0) that is kept. *)
Definition greenBytes : list byte := [x00; xff; x00; xff].
Definition greenRestored : DecodedFrame :=
  Frame.mk 4 (Some 3) (Dims.mk 0 0 1 1) greenBytes.
Definition blueKept : DecodedFrame :=
  Frame.mk 6 (Some 1) (Dims.mk 1 0 1 1) blueBytes.

(** ** The command front end

    JavaScript strings are sequences of code units; a [string] here is one
    whose code units are all below 256, its characters being the code
    units.  On such strings [trim] and [toLowerCase] stay within them. *)

(** The white space and line terminators [trim] removes, among the code
    units below 256: tab, line feed, vertical tab, form feed, carriage
    return, space and no-break space. *)
Definition isWhiteSpace (c : ascii) : bool :=
  bool_decide (N_of_ascii c ∈ [9; 10; 11; 12; 13; 32; 160]%N).

Fixpoint trimStart (s : string) : string :=
  match s with
  | String c s' => if isWhiteSpace c then trimStart s' else s
  | EmptyString => EmptyString
  end.

Fixpoint trimEnd (s : string) : string :=
  match s with
  | String c s' =>
      match trimEnd s' with
      | EmptyString => if isWhiteSpace c then EmptyString
                       else String c EmptyString
      | t => String c t
      end
  | EmptyString => EmptyString
  end.

(** [s.trim()] *)
Definition trim (s : string) : string := trimEnd (trimStart s).

(** The lower-case mapping of one code unit below 256: the letters A-Z and
    the accented capitals U+00C0-U+00DE (the multiplication sign U+00D7
    apart) move up by 32. *)
Definition lowerChar (c : ascii) : ascii :=
  let n := N_of_ascii c in
  if ((65 <=? n) && (n <=? 90)
      || (192 <=? n) && (n <=? 222) && negb (n =? 215))%N
  then ascii_of_N (n + 32)
  else c.

(** [s.toLowerCase()] *)
Fixpoint toLowerCase (s : string) : string :=
  match s with
  | String c s' => String (lowerChar c) (toLowerCase s')
  | EmptyString => EmptyString
  end.

(** The values of the type [Direction] are its names. *)
Definition directionName (d : Direction) : string :=
  match d with
  | Left => "left"
  | Right => "right"
  | Up => "up"
  | Down => "down"
  | Both => "both"
  end.

(** The own properties of the object [directionAliases], lines 20-38. *)
Definition directionAliases : list (string * Direction) :=
  [("left", Left); ("l", Left); ("lr", Left);
   ("right", Right); ("r", Right); ("rl", Right);
   ("up", Up); ("u", Up); ("top", Up);
   ("down", Down); ("d", Down); ("bottom", Down);
   ("both", Both); ("all", Both); ("hv", Both); ("vh", Both);
   ("quad", Both)].

(** [directionAliases] is an object literal, so a key it does not own is
    looked up on [Object.prototype], whose properties these are. *)
Definition objectPrototypeKeys : list string :=
  ["constructor"; "__defineGetter__"; "__defineSetter__"; "hasOwnProperty";
   "__lookupGetter__"; "__lookupSetter__"; "isPrototypeOf";
   "propertyIsEnumerable"; "toString"; "valueOf"; "__proto__";
   "toLocaleString"].

(** What [directionAliases[key]] evaluates to when it is not [undefined]: a
    direction, or the member of [Object.prototype] of that name (a function
    or an object, never a direction). *)
Inductive AliasValue :=
  | IsDirection (d : Direction)
  | Inherited (key : string).

Fixpoint ownProperty (table : list (string * Direction)) (key : string)
  : option Direction :=
  match table with
  | (k, d) :: table' => if decide (k = key) then Some d
                        else ownProperty table' key
  | [] => None
  end.

(** [directionAliases[key]], [None] for [undefined]. *)
Definition getAlias (key : string) : option AliasValue :=
  match ownProperty directionAliases key with
  | Some d => Some (IsDirection d)
  | None => if decide (key ∈ objectPrototypeKeys) then Some (Inherited key)
            else None
  end.

(** [normalizeDirection], lines 40-44; [None] is [null], and the argument
    is [None] when the option was not given. *)
Definition normalizeDirection (value : option string) : option AliasValue :=
  match value with
  | None => None
  | Some EmptyString => None
  | Some v =>
      let key := toLowerCase (trim v) in
      getAlias key
  end.

(** Lines 409-413 of the command action: the direction the command goes on
    with, or [None] when it answers with the invalid-direction notice. *)
Definition actionDirection (optionDirection : option string)
  : option AliasValue :=
  let normalized := normalizeDirection optionDirection in
  match optionDirection, normalized with
  | Some (String _ _), None => None
  | _, _ => Some (default (IsDirection Left) normalized)
  end.

(** What [buffer.slice(0, n).toString("ascii")] decodes: the first [n]
    bytes, each with its highest bit unset. *)
Definition asciiSlice (buffer : list byte) (n : nat) : string :=
  String.string_of_list_ascii
    (map (λ b, ascii_of_N (N.land (Byte.to_N b) 127)) (take n buffer)).

(** [isGif], lines 58-62. *)
Definition isGif (buffer : list byte) : bool :=
  if length buffer <? 6 then false
  else
    let signature := asciiSlice buffer 6 in
    bool_decide (signature = "GIF87a") || bool_decide (signature = "GIF89a").

Definition allWhiteSpace (s : string) : Prop :=
  Forall (λ c, isWhiteSpace c = true) (String.list_ascii_of_string s).

(** The text contains one of the letters A-Z. *)
Fixpoint hasUpper (s : string) : bool :=
  match s with
  | String c s' =>
      ((65 <=? N_of_ascii c) && (N_of_ascii c <=? 90))%N || hasUpper s'
  | EmptyString => false
  end.

(** ** Data URLs

    The regular expression of line 65 is matched the way the language
    defines it: by backtracking, every term being given the continuation
    that matches what follows it. *)

(** Sets of characters: one character, the complement of a list, and the
    dot, which stands for every character but the line terminators (line
    feed and carriage return among the code units below 256). *)
Inductive CharSet :=
  | Literal (c : ascii)
  | NoneOf (cs : list ascii)
  | AnyButLineEnd.

Inductive Regex :=
  | Epsilon
  | BeginInput
  | EndInput
  | Char (cs : CharSet)
  | Many (cs : CharSet)
  | Cat (r1 r2 : Regex)
  | Maybe (r : Regex)
  | Capture (n : nat) (r : Regex).

(** A state of the matcher: the index reached in the input, the input from
    there on, and the texts captured so far. *)
Record MatchState := mkState {
  position : nat;
  remaining : string;
  captures : nat → option string }.

Definition Continuation : Type := MatchState → option MatchState.

(** Under the flag [i] characters are compared after canonicalisation.  Two
    code units below 256 have the same canonical form exactly when they have
    the same lower case. *)
Definition sameChar (a b : ascii) : bool :=
  bool_decide (lowerChar a = lowerChar b).

Definition accepts (cs : CharSet) (c : ascii) : bool :=
  match cs with
  | Literal l => sameChar c l
  | NoneOf l => negb (existsb (sameChar c) l)
  | AnyButLineEnd => negb (bool_decide (N_of_ascii c ∈ [10; 13]%N))
  end.

Definition setCapture (n : nat) (text : string) (caps : nat → option string)
  : nat → option string :=
  λ m, if decide (m = n) then Some text else caps m.

(** [cs*], greedy: as many characters as possible, then one fewer, and so
    on, until what follows matches. *)
Fixpoint many (cs : CharSet) (pos : nat) (s : string)
    (caps : nat → option string) (k : Continuation) : option MatchState :=
  match s with
  | String c s' =>
      if accepts cs c then
        match many cs (S pos) s' caps k with
        | Some m => Some m
        | None => k (mkState pos s caps)
        end
      else k (mkState pos s caps)
  | EmptyString => k (mkState pos s caps)
  end.

Fixpoint matcher (r : Regex) (x : MatchState) (k : Continuation)
  : option MatchState :=
  match r with
  | Epsilon => k x
  | BeginInput => if decide (position x = 0) then k x else None
  | EndInput => if decide (remaining x = "") then k x else None
  | Char cs =>
      match remaining x with
      | String c s' =>
          if accepts cs c then k (mkState (S (position x)) s' (captures x))
          else None
      | EmptyString => None
      end
  | Many cs => many cs (position x) (remaining x) (captures x) k
  | Cat r1 r2 => matcher r1 x (λ y, matcher r2 y k)
  | Maybe r =>
      let once :=
        matcher r x
          (λ y, if decide (position y = position x) then None else k y) in
      match once with
      | Some m => Some m
      | None => k x
      end
  | Capture n r =>
      matcher r x
        (λ y,
           let text :=
             String.substring 0 (position y - position x) (remaining x) in
           k (mkState (position y) (remaining y)
                (setCapture n text (captures y))))
  end.

(** [r.exec(s)] of a pattern without the flags [g] and [y]: the first index
    at which the pattern matches. *)
Fixpoint execFrom (r : Regex) (pos : nat) (s : string) : option MatchState :=
  match matcher r (mkState pos s (λ _, None)) Some with
  | Some m => Some m
  | None =>
      match s with
      | String _ s' => execFrom r (S pos) s'
      | EmptyString => None
      end
  end.

Definition exec (r : Regex) (s : string) : option MatchState :=
  execFrom r 0 s.

Fixpoint literally (s : string) : Regex :=
  match s with
  | String c s' => Cat (Char (Literal c)) (literally s')
  | EmptyString => Epsilon
  end.

(** Every character but the semicolon and the comma. *)
Definition notSeparator : CharSet := NoneOf [";"; ","]%char.

(** The pattern of line 65, under the flag [i]: the start of the input, the
    text [data:], an optional first group of one or more characters other
    than semicolon and comma, an optional second group [;base64], a comma,
    a third group of any number of characters the dot stands for, and the
    end of the input. *)
Definition dataUrlPattern : Regex :=
  Cat BeginInput
    (Cat (literally "data:")
       (Cat (Maybe (Capture 1 (Cat (Char notSeparator) (Many notSeparator))))
          (Cat (Maybe (Capture 2 (literally ";base64")))
             (Cat (Char (Literal ","))
                (Cat (Capture 3 (Many AnyButLineEnd)) EndInput))))).

(** What [fetchImageBuffer] fails with. *)
Inductive FetchError :=
  | InvalidDataUrl
  | URIError
  | HttpError.

Inductive Fetched (A : Type) :=
  | Got (a : A)
  | Failed (e : FetchError).
Arguments Got {A} a.
Arguments Failed {A} e.

Section Fetch.

(** [Buffer.from(data, "base64")]; [Buffer.from(decodeURIComponent(data),
    "utf8")], which is [None] when [decodeURIComponent] throws; and
    [ctx.http.get], which is [None] when the request fails. *)
Variable base64Decode : string → list byte.
Variable percentDecode : string → option (list byte).
Variable httpGet : string → option (list byte).

(** [parseDataUrl], lines 64-73. *)
Definition parseDataUrl (dataUrl : string) : Fetched (list byte) :=
  match exec dataUrlPattern dataUrl with
  | None => Failed InvalidDataUrl
  | Some m =>
      let isBase64 :=
        match captures m 2 with Some (String _ _) => true | _ => false end in
      let data := default "" (captures m 3) in
      if isBase64 then Got (base64Decode data)
      else
        match percentDecode data with
        | Some buffer => Got buffer
        | None => Failed URIError
        end
  end.

(** [s.startsWith(prefix)] *)
Fixpoint startsWith (s prefix : string) {struct prefix} : bool :=
  match prefix, s with
  | EmptyString, _ => true
  | String p prefix', String c s' =>
      bool_decide (c = p) && startsWith s' prefix'
  | String _ _, EmptyString => false
  end.

(** [fetchImageBuffer], lines 75-84. *)
Definition fetchImageBuffer (src : string) : Fetched (list byte) :=
  if startsWith src "data:" then parseDataUrl src
  else
    match httpGet src with
    | Some buffer => Got buffer
    | None => Failed HttpError
    end.

End Fetch.

(** Every character of a text belongs to a set. *)
Fixpoint allChars (cs : CharSet) (s : string) : bool :=
  match s with
  | String c s' => accepts cs c && allChars cs s'
  | EmptyString => true
  end.

(** The marker of a base64 payload, in any letter case, or none. *)
Definition base64Marker (marker : string) : Prop :=
  marker = "" ∨ toLowerCase marker = ";base64".

(** What follows the media type in the pattern. *)
Definition dataUrlTail : Regex :=
  Cat (Maybe (Capture 2 (literally ";base64")))
    (Cat (Char (Literal ","))
       (Cat (Capture 3 (Many AnyButLineEnd)) EndInput)).

(** The second and third captured texts of a match. *)
Definition payload (m : option MatchState)
  : option (option string * option string) :=
  (λ m, (captures m 2, captures m 3)) <$> m.

(** A text does not begin with a character of a set. *)
Definition stopsAt (cs : CharSet) (s : string) : Prop :=
  ∀ c s', s = String c s' → accepts cs c = false.

(** Every character but the comma. *)
Definition notComma : CharSet := NoneOf [","]%char.

(** * Properties *)

(** ** Typed-array primitives *)

Lemma length_fill_bytes v start end_ t :
  length (fill_bytes v start end_ t) = length t.
Proof. apply length_inserts. Qed.

Lemma set_bytes_Ok source offset t t' :
  set_bytes source offset t = Ok t' →
  offset + length source ≤ length t ∧ t' = list_inserts offset source t.
Proof. unfold set_bytes. case_decide; naive_solver. Qed.

Lemma set_bytes_length source offset t t' :
  set_bytes source offset t = Ok t' → length t' = length t.
Proof. intros [_ ->]%set_bytes_Ok. apply length_inserts. Qed.

Lemma set_bytes_fits source offset t :
  offset + length source ≤ length t →
  set_bytes source offset t = Ok (list_inserts offset source t).
Proof. intros. unfold set_bytes. by rewrite decide_True. Qed.

Lemma set_bytes_overflow source offset t :
  length t < offset + length source →
  set_bytes source offset t = Throw RangeError.
Proof. intros. unfold set_bytes. rewrite decide_False; [done | lia]. Qed.

(** [canvas.set(whole)] with an array of the same length replaces it. *)
Lemma set_bytes_whole source t :
  length source = length t → set_bytes source 0 t = Ok source.
Proof.
  intros Hlen. rewrite set_bytes_fits by (simpl; lia). f_equal.
  rewrite <- (app_nil_r source) at 1. by apply list_inserts_0_l.
Qed.

Lemma length_subarray t b e :
  length (subarray t b e) = (e - b) `min` (length t - b).
Proof. unfold subarray. by rewrite length_take, length_drop. Qed.

Lemma lookup_subarray t b e k :
  k < e - b → subarray t b e !! k = t !! (b + k).
Proof. intros. unfold subarray. by rewrite lookup_take_lt, lookup_drop. Qed.

(** ** The store *)

Lemma contents_lookup (h : Heap) r t : h !! r = Some t → contents h r = t.
Proof. intros. unfold contents. by apply list_lookup_total_correct. Qed.

Lemma bind_run {A B} (m : Js A) (k : A → Js B) h :
  (m ≫= k) h = match m h with Ok (a, h') => k a h' | Throw e => Throw e end.
Proof. reflexivity. Qed.

Lemma bind_result {A B} (m : Result A) (k : A → Result B) :
  m ≫= k = match m with Ok a => k a | Throw e => Throw e end.
Proof. reflexivity. Qed.

Lemma foldl_result_app {S A} (f : S → A → Result S) s xs ys :
  foldl_result f s (xs ++ ys) =
  foldl_result f s xs ≫= λ s', foldl_result f s' ys.
Proof.
  revert s. induction xs as [|x xs IH]; intros s; simpl; [done|].
  rewrite !bind_result. destruct (f s x); simpl; [apply IH | done].
Qed.

Lemma for_each_app {S A} (body : S → A → Js S) s xs ys h :
  for_each body s (xs ++ ys) h =
  (for_each body s xs ≫= λ s', for_each body s' ys) h.
Proof.
  revert s h. induction xs as [|x xs IH]; intros s h; simpl; [done|].
  rewrite !bind_run. destruct (body s x h) as [[s' h']|]; [apply IH | done].
Qed.

(** The row loops act on the contents of their target as [clearRows] and
    [patchRows] do, and touch no other array. *)
Lemma clearRectPixels_run target dims width (h : Heap) t :
  h !! target = Some t →
  clearRectPixels target dims width h
  = Ok (tt, <[target := clearRows dims width t]> h).
Proof.
  unfold clearRectPixels, for_range, clearRows, rowOffset.
  generalize (seq 0 (Dims.height dims)). intros ys. revert h t.
  induction ys as [|y ys IH]; intros h t Ht; simpl.
  - by rewrite list_insert_id.
  - rewrite bind_run. unfold ta_fill at 1. rewrite (contents_lookup _ _ _ Ht).
    rewrite (IH _ (fill_bytes x00 (((Dims.top dims + y) * width
                                     + Dims.left dims) * 4)
                     (((Dims.top dims + y) * width + Dims.left dims) * 4
                      + Dims.width dims * 4) t)).
    + by rewrite list_insert_insert_eq.
    + apply list_lookup_insert_eq. eauto using lookup_lt_Some.
Qed.

Lemma applyPatch_run target patch dims width (h : Heap) t :
  h !! target = Some t →
  applyPatch target patch dims width h
  = match patchRows patch dims width t with
    | Ok t' => Ok (tt, <[target := t']> h)
    | Throw e => Throw e
    end.
Proof.
  unfold applyPatch, for_range, patchRows, patchRow, rowOffset.
  generalize (seq 0 (Dims.height dims)). intros ys. revert h t.
  induction ys as [|y ys IH]; intros h t Ht; simpl.
  - by rewrite list_insert_id.
  - rewrite bind_run, bind_result. unfold ta_set at 1.
    rewrite (contents_lookup _ _ _ Ht).
    destruct (set_bytes _ _ t) as [t1|e]; [|done].
    rewrite (IH _ t1).
    + destruct (foldl_result _ t1 ys); [|done].
      by rewrite list_insert_insert_eq.
    + apply list_lookup_insert_eq. eauto using lookup_lt_Some.
Qed.

(** ** The store follows the contents view *)

Lemma preserves_refl canvas h : preserves canvas h h.
Proof. by intros r t. Qed.

Lemma preserves_trans canvas h1 h2 h3 :
  preserves canvas h1 h2 → preserves canvas h2 h3 → preserves canvas h1 h3.
Proof. intros H12 H23 r t ? ?. eauto. Qed.

Lemma preserves_insert canvas (h : Heap) t : preserves canvas h (<[canvas := t]> h).
Proof. intros r t' ? ?. by rewrite list_lookup_insert_ne. Qed.

Lemma preserves_app canvas (h : Heap) l : preserves canvas h (h ++ l).
Proof. intros r t' ? ?. by apply lookup_app_l_Some. Qed.

Lemma sim_preserves canvas h h' v c :
  sim canvas h v c → preserves canvas h h' →
  h' !! canvas = Some (c_canvas c) → sim canvas h' v c.
Proof.
  intros [Hc He Hd Hr Hs] Hp Hc'. split; try done.
  - eapply Forall2_impl; [exact He|].
    intros rf bf (Hne & Hrf & Hdl). split_and!; [done | by apply Hp | done].
  - destruct Hs as [r s [Hne Hrs]|]; constructor.
    split; [done | by apply Hp].
Qed.

Lemma applyDisposal_run canvas width h v c :
  sim canvas h v c →
  applyDisposal canvas width v h
  = match disposedBytes width c with
    | Ok t => Ok (tt, <[canvas := t]> h)
    | Throw e => Throw e
    end.
Proof.
  intros [Hc _ Hd Hr Hs]. unfold applyDisposal, disposedBytes.
  rewrite Hd, Hr.
  assert (Hid : Ok (tt, h) = Ok (tt, <[canvas := c_canvas c]> h) :> Result (unit * Heap)).
  { by rewrite list_insert_id. }
  destruct (c_prevDisposal c =? 2), (c_prevRect c) as [rect|];
    try (by apply clearRectPixels_run);
    destruct (c_prevDisposal c =? 3); try exact Hid;
    destruct Hs as [r s [_ Hs]|]; try exact Hid;
    unfold ta_set_from, ta_set;
    rewrite (contents_lookup _ _ _ Hs), (contents_lookup _ _ _ Hc);
    by destruct (set_bytes s 0 (c_canvas c)).
Qed.

Lemma composite_run canvas width height frame (h : Heap) t :
  h !! canvas = Some t →
  composite canvas width height frame h
  = match compositeBytes width height frame t with
    | Ok t' => Ok (tt, <[canvas := t']> h)
    | Throw e => Throw e
    end.
Proof.
  intros Ht. unfold composite, compositeBytes. case_decide.
  - unfold ta_set. by rewrite (contents_lookup _ _ _ Ht).
  - by apply applyPatch_run.
Qed.

Lemma copy_array_run source (h : Heap) t :
  h !! source = Some t → copy_array source h = Ok (length h, h ++ [t]).
Proof. intros Ht. unfold copy_array. by rewrite (contents_lookup _ _ _ Ht). Qed.

Lemma lookup_snoc_new (h : Heap) t : (h ++ [t]) !! length h = Some t.
Proof. by rewrite lookup_app_r, Nat.sub_diag. Qed.

(** One iteration of the loop of [buildFullFrames] is one [contentsStep]:
    it throws when that throws, and otherwise leaves a store that holds the
    new contents, with every earlier array but the canvas untouched. *)
Lemma frameStep_sim canvas width height h v c frame :
  sim canvas h v c →
  match contentsStep width height c frame with
  | Ok c' => ∃ v' h', frameStep canvas width height v frame h = Ok (v', h')
                      ∧ sim canvas h' v' c' ∧ preserves canvas h h'
  | Throw e => frameStep canvas width height v frame h = Throw e
  end.
Proof.
  intros Hsim. pose proof (sim_canvas _ _ _ _ Hsim) as Hc.
  assert (Hlt : canvas < length h) by eauto using lookup_lt_Some.
  unfold frameStep, contentsStep.
  rewrite bind_run, bind_result, (applyDisposal_run _ _ _ _ _ Hsim).
  destruct (disposedBytes width c) as [d|e]; [|done].
  set (h1 := <[canvas := d]> h).
  assert (Hc1 : h1 !! canvas = Some d) by by apply list_lookup_insert_eq.
  assert (Hp1 : preserves canvas h h1) by apply preserves_insert.
  rewrite bind_run, bind_result. unfold takeSnapshot.
  destruct (decide (Frame.disposalType frame = Some 3)) as [Hd|Hd].
  - rewrite bind_run, (copy_array_run _ _ _ Hc1). simpl.
    set (h2 := h1 ++ [d]).
    assert (Hc2 : h2 !! canvas = Some d) by by apply lookup_app_l_Some.
    rewrite bind_run, (composite_run _ _ _ _ _ _ Hc2).
    destruct (compositeBytes width height frame d) as [t|e]; [|done].
    set (h3 := <[canvas := t]> h2).
    assert (Hlen2 : length h2 = S (length h)).
    { unfold h2, h1. rewrite length_app, length_insert. simpl. lia. }
    assert (Hc3 : h3 !! canvas = Some t).
    { apply list_lookup_insert_eq. lia. }
    rewrite bind_run, (copy_array_run _ _ _ Hc3). simpl.
    assert (Hp : preserves canvas h (h3 ++ [t])).
    { eapply preserves_trans; [exact Hp1|].
      eapply preserves_trans; [apply preserves_app|].
      eapply preserves_trans; [apply preserves_insert|apply preserves_app]. }
    eexists _, _. split; [reflexivity|]. split; [|exact Hp].
    destruct Hsim as [_ He Hdi Hr Hs]. split; simpl.
    + by apply lookup_app_l_Some.
    + apply Forall2_app.
      * eapply Forall2_impl; [exact He|].
        intros rf bf (Hne & Hrf & Hdl).
        split_and!; [done | by apply Hp | done].
      * constructor; [|constructor]. simpl.
        unfold h3. rewrite length_insert. split; [lia|].
        split; [|done]. rewrite <- (length_insert h2 canvas t).
        apply lookup_snoc_new.
    + done.
    + done.
    + assert (Hlen1 : length h1 = length h) by apply length_insert.
      constructor. split; [lia|].
      apply lookup_app_l_Some. unfold h3.
      rewrite list_lookup_insert_ne by lia. apply lookup_snoc_new.
  - simpl. rewrite bind_run, (composite_run _ _ _ _ _ _ Hc1).
    destruct (compositeBytes width height frame d) as [t|e]; [|done].
    set (h3 := <[canvas := t]> h1).
    assert (Hc3 : h3 !! canvas = Some t).
    { apply list_lookup_insert_eq. unfold h1. by rewrite length_insert. }
    rewrite bind_run, (copy_array_run _ _ _ Hc3). simpl.
    assert (Hp : preserves canvas h (h3 ++ [t])).
    { eapply preserves_trans; [exact Hp1|].
      eapply preserves_trans; [apply preserves_insert|apply preserves_app]. }
    eexists _, _. split; [reflexivity|]. split; [|exact Hp].
    destruct Hsim as [_ He Hdi Hr Hs]. split; simpl.
    + by apply lookup_app_l_Some.
    + apply Forall2_app.
      * eapply Forall2_impl; [exact He|].
        intros rf bf (Hne & Hrf & Hdl).
        split_and!; [done | by apply Hp | done].
      * constructor; [|constructor]. simpl.
        unfold h3, h1. rewrite !length_insert. split; [lia|].
        split; [|done]. rewrite <- (length_insert h canvas d).
        rewrite <- (length_insert (<[canvas := d]> h) canvas t).
        apply lookup_snoc_new.
    + done.
    + done.
    + constructor.
Qed.

Lemma for_each_sim canvas width height frames : ∀ h v c,
  sim canvas h v c →
  match foldl_result (contentsStep width height) c frames with
  | Ok c' => ∃ v' h',
      for_each (frameStep canvas width height) v frames h = Ok (v', h')
      ∧ sim canvas h' v' c' ∧ preserves canvas h h'
  | Throw e => for_each (frameStep canvas width height) v frames h = Throw e
  end.
Proof.
  induction frames as [|f frames IH]; intros h v c Hsim; simpl.
  - eexists _, _. eauto using preserves_refl.
  - rewrite bind_run, bind_result.
    pose proof (frameStep_sim canvas width height h v c f Hsim) as Hstep.
    destruct (contentsStep width height c f) as [c1|e]; [|by rewrite Hstep].
    destruct Hstep as (v1 & h1 & -> & Hsim1 & Hp1).
    specialize (IH h1 v1 c1 Hsim1).
    destruct (foldl_result _ c1 frames) as [c2|e]; [|done].
    destruct IH as (v2 & h2 & -> & Hsim2 & Hp2).
    eexists _, _. eauto using preserves_trans.
Qed.

Lemma sim_init width height (h0 : Heap) :
  sim (length h0) (h0 ++ [replicate (width * height * 4) x00]) initVars
      (initContents width height).
Proof.
  split; simpl; [apply lookup_snoc_new | constructor | done | done | constructor].
Qed.

(** [buildLoop] refines [contentsRun], whatever the store it starts in; the
    canvas is the array allocated first. *)
Lemma buildLoop_sim frames width height (h0 : Heap) :
  match contentsRun frames width height with
  | Ok c => ∃ v h,
      buildLoop frames width height h0 = Ok ((length h0, v), h)
      ∧ sim (length h0) h v c
  | Throw e => buildLoop frames width height h0 = Throw e
  end.
Proof.
  unfold buildLoop, contentsRun. rewrite bind_run. unfold new_array.
  pose proof (for_each_sim (length h0) width height frames _ _ _
                (sim_init width height h0)) as Hloop.
  rewrite bind_run.
  destruct (foldl_result _ _ frames) as [c|e].
  - destruct Hloop as (v & h & -> & Hsim & _). eauto.
  - by rewrite Hloop.
Qed.

Lemma sim_resolve canvas h v c :
  sim canvas h v c → resolve h (fullFrames v) = c_emitted c.
Proof.
  intros [_ He _ _ _]. unfold resolve.
  induction He as [|[r d] [t d'] rs ts (_ & Hr & Hd) _ IH]; simpl; [done|].
  simpl in *. by rewrite (contents_lookup _ _ _ Hr), Hd, IH.
Qed.

(** What the caller of [buildFullFrames] reads is what the contents view
    emitted. *)
Lemma reconstruct_contents frames width height :
  reconstruct frames width height
  = c_emitted <$> contentsRun frames width height.
Proof.
  unfold reconstruct, buildFullFrames. rewrite bind_run.
  pose proof (buildLoop_sim frames width height []) as Hsim.
  destruct (contentsRun frames width height) as [c|e]; simpl.
  - destruct Hsim as (v & h & -> & Hsim). simpl.
    by rewrite (sim_resolve _ _ _ _ Hsim).
  - by rewrite Hsim.
Qed.

(** ** Row arithmetic *)

(** When the rectangle does not pass the right edge of the canvas, the row
    spans are exactly the bytes of the pixels of the rectangle. *)
Lemma inRow_inRect dims width i :
  Dims.left dims + Dims.width dims ≤ width →
  (∃ y, y < Dims.height dims ∧ inRow dims width y i = true)
  ↔ inRect dims (byteX width i) (byteY width i) = true.
Proof.
  destruct dims as [l t w h]. unfold inRow, inRect, rowOffset, byteX, byteY.
  cbn [Dims.left Dims.top Dims.width Dims.height]. intros Hw.
  destruct (decide (width = 0)) as [->|Hne].
  { split.
    - intros (y & _ & Hy%bool_decide_eq_true). lia.
    - intros Hy%bool_decide_eq_true. lia. }
  pose proof (Nat.div_mod_eq i 4) as Hi.
  pose proof (Nat.mod_upper_bound i 4 ltac:(lia)) as Hi4.
  pose proof (Nat.div_mod_eq (i / 4) width) as Hp.
  pose proof (Nat.mod_upper_bound (i / 4) width Hne) as Hpw.
  set (p := i / 4) in *. set (q := p / width) in *.
  set (r := p mod width) in *. set (m := i mod 4) in *.
  clearbody m r q p. split.
  - intros (y & Hy & Hrow%bool_decide_eq_true).
    apply bool_decide_eq_true.
    assert (Hpy : (t + y) * width + l ≤ p < (t + y) * width + l + w) by lia.
    assert (q = t + y) as ->.
    { destruct (Nat.lt_trichotomy q (t + y)) as [Hlt|[Heq|Hgt]]; [|done|].
      - assert (width * (q + 1) ≤ width * (t + y))
          by (apply Nat.mul_le_mono_l; lia). lia.
      - assert (width * (t + y + 1) ≤ width * q)
          by (apply Nat.mul_le_mono_l; lia). lia. }
    lia.
  - intros Hrect%bool_decide_eq_true.
    exists (q - t). split; [lia|]. apply bool_decide_eq_true.
    replace (t + (q - t)) with q by lia. lia.
Qed.

Lemma lookup_fill_bytes v start end_ t i :
  i < length t →
  fill_bytes v start end_ t !! i
  = if bool_decide (start ≤ i < end_) then Some v else t !! i.
Proof.
  intros Hi. unfold fill_bytes. case_bool_decide as Hin.
  - rewrite list_lookup_inserts by (rewrite ?length_replicate; lia).
    apply lookup_replicate_2. lia.
  - destruct (decide (i < start)).
    + by apply list_lookup_inserts_lt.
    + apply list_lookup_inserts_ge. rewrite length_replicate. lia.
Qed.

Lemma length_clearRows dims width t :
  length (clearRows dims width t) = length t.
Proof.
  unfold clearRows. generalize (seq 0 (Dims.height dims)). intros ys.
  revert t. induction ys as [|y ys IH]; intros t; simpl; [done|].
  by rewrite IH, length_fill_bytes.
Qed.

Lemma lookup_clearRows_rows dims width ys t i :
  i < length t →
  foldl (λ t y, fill_bytes x00 (rowOffset dims width y)
                  (rowOffset dims width y + Dims.width dims * 4) t) t ys !! i
  = if existsb (λ y, inRow dims width y i) ys then Some x00 else t !! i.
Proof.
  revert t. induction ys as [|y ys IH]; intros t Hi; simpl; [done|].
  rewrite IH by by rewrite length_fill_bytes.
  rewrite lookup_fill_bytes by done. unfold inRow at 2.
  destruct (existsb _ ys); [by rewrite orb_true_r|].
  by rewrite orb_false_r.
Qed.

(** [clearRectPixels] on the contents, byte by byte: inside the rectangle
    zero, elsewhere unchanged. *)
Lemma lookup_clearRows dims width t i :
  Dims.left dims + Dims.width dims ≤ width →
  i < length t →
  clearRows dims width t !! i
  = if inRect dims (byteX width i) (byteY width i) then Some x00 else t !! i.
Proof.
  intros Hw Hi. unfold clearRows. rewrite lookup_clearRows_rows by done.
  pose proof (inRow_inRect dims width i Hw) as Hiff.
  destruct (inRect dims _ _).
  - destruct Hiff as [_ (y & Hy & Hrow)]; [done|].
    replace (existsb _ _) with true; [done|]. symmetry.
    apply existsb_exists. exists y. split; [|done].
    apply in_seq. lia.
  - replace (existsb _ _) with false; [done|]. symmetry.
    apply not_true_is_false. intros (y & Hy%in_seq & Hrow)%existsb_exists.
    assert (false = true); [|done]. apply Hiff. exists y. split; [lia|done].
Qed.

(** The rows of a patch as [applyPatch] reads them. *)
Lemma length_patchRow_full patch dims y :
  y < Dims.height dims →
  Dims.width dims * Dims.height dims * 4 ≤ length patch →
  length (patchRow patch dims y) = Dims.width dims * 4.
Proof.
  intros Hy Hlen. unfold patchRow. rewrite length_subarray.
  assert (Dims.width dims * 4 * (y + 1) ≤ Dims.width dims * 4 * Dims.height dims)
    by (apply Nat.mul_le_mono_l; lia).
  lia.
Qed.

Lemma lookup_patchRow patch dims y k :
  k < Dims.width dims * 4 →
  patchRow patch dims y !! k = patch !! (y * (Dims.width dims * 4) + k).
Proof. intros. unfold patchRow. apply lookup_subarray. lia. Qed.

(** Rows of a rectangle that stays left of the right edge do not overlap. *)
Lemma rowOffset_mono dims width y y' :
  Dims.left dims + Dims.width dims ≤ width → y < y' →
  rowOffset dims width y + Dims.width dims * 4 ≤ rowOffset dims width y'.
Proof.
  intros Hw Hy. unfold rowOffset.
  assert ((Dims.top dims + y + 1) * width ≤ (Dims.top dims + y') * width)
    by (apply Nat.mul_le_mono_r; lia).
  lia.
Qed.

Lemma rowOffset_end dims width height y :
  Dims.left dims + Dims.width dims ≤ width →
  Dims.top dims + Dims.height dims ≤ height → y < Dims.height dims →
  rowOffset dims width y + Dims.width dims * 4 ≤ width * height * 4.
Proof.
  intros Hw Hh Hy. unfold rowOffset.
  assert ((Dims.top dims + y + 1) * width ≤ height * width)
    by (apply Nat.mul_le_mono_r; lia).
  lia.
Qed.

(** [applyPatch] on the contents for a patch that holds all the rows of a
    rectangle inside the canvas: every row lands at its offset, the other
    bytes stay. *)
Lemma patchRows_spec patch dims width height t :
  length t = width * height * 4 →
  Dims.left dims + Dims.width dims ≤ width →
  Dims.top dims + Dims.height dims ≤ height →
  Dims.width dims * Dims.height dims * 4 ≤ length patch →
  ∃ t', patchRows patch dims width t = Ok t'
    ∧ length t' = length t
    ∧ (∀ y k, y < Dims.height dims → k < Dims.width dims * 4 →
         t' !! (rowOffset dims width y + k)
         = patch !! (y * (Dims.width dims * 4) + k))
    ∧ (∀ i, (∀ y, y < Dims.height dims → inRow dims width y i = false) →
         t' !! i = t !! i).
Proof.
  intros Ht Hw Hh Hp. unfold patchRows.
  assert (Hgen : ∀ n, n ≤ Dims.height dims →
    ∃ t', foldl_result (λ t y, set_bytes (patchRow patch dims y)
                                 (rowOffset dims width y) t) t (seq 0 n) = Ok t'
      ∧ length t' = length t
      ∧ (∀ y k, y < n → k < Dims.width dims * 4 →
           t' !! (rowOffset dims width y + k)
           = patch !! (y * (Dims.width dims * 4) + k))
      ∧ (∀ i, (∀ y, y < n → inRow dims width y i = false) → t' !! i = t !! i)).
  { induction n as [|n IH]; intros Hn.
    - exists t. simpl. split; [done|]. split; [done|].
      split; [intros; lia | done].
    - destruct IH as (t1 & Hrun & Hlen & Hrows & Hrest); [lia|].
      rewrite seq_S, foldl_result_app, Hrun. simpl.
      pose proof (length_patchRow_full patch dims n ltac:(lia) Hp) as Hrow.
      pose proof (rowOffset_end dims width height n Hw Hh ltac:(lia)) as Hend.
      rewrite bind_result, set_bytes_fits by lia. simpl.
      eexists. split; [reflexivity|]. split; [by rewrite length_inserts|].
      split.
      + intros y k Hy Hk. destruct (decide (y = n)) as [->|Hne].
        * rewrite list_lookup_inserts by lia.
          replace (rowOffset dims width n + k - rowOffset dims width n)
            with k by lia.
          by apply lookup_patchRow.
        * pose proof (rowOffset_mono dims width y n Hw ltac:(lia)).
          rewrite list_lookup_inserts_lt by lia. apply Hrows; lia.
      + intros i Hi.
        assert (Hn' : inRow dims width n i = false) by (apply Hi; lia).
        apply bool_decide_eq_false in Hn'.
        destruct (decide (i < rowOffset dims width n)).
        * rewrite list_lookup_inserts_lt by done. apply Hrest.
          intros; apply Hi; lia.
        * rewrite list_lookup_inserts_ge by lia. apply Hrest.
          intros; apply Hi; lia. }
  apply Hgen. lia.
Qed.

(** Rows of a rectangle no wider than the canvas do not overlap. *)
Lemma rowOffset_apart dims width y y' :
  Dims.width dims ≤ width → y < y' →
  rowOffset dims width y + Dims.width dims * 4 ≤ rowOffset dims width y'.
Proof.
  intros Hw Hy. unfold rowOffset.
  assert ((Dims.top dims + y + 1) * width ≤ (Dims.top dims + y') * width)
    by (apply Nat.mul_le_mono_r; lia).
  lia.
Qed.

(** The canvas after each row copy of [applyPatch], for a patch that holds
    all of its rows: copy [y] writes row [y] of the patch at its offset and
    nothing else. *)
Lemma patchRows_steps patch dims width t t' :
  patchRows patch dims width t = Ok t' →
  Dims.width dims * Dims.height dims * 4 ≤ length patch →
  ∃ steps : nat → list byte,
    steps 0 = t ∧ steps (Dims.height dims) = t'
    ∧ ∀ y, y < Dims.height dims →
        (∀ k, k < Dims.width dims * 4 →
           steps (S y) !! (rowOffset dims width y + k)
           = patch !! (y * (Dims.width dims * 4) + k))
        ∧ (∀ i, inRow dims width y i = false →
             steps (S y) !! i = steps y !! i).
Proof.
  unfold patchRows. intros Hrun Hp.
  set (f := λ t y, set_bytes (patchRow patch dims y)
                     (rowOffset dims width y) t) in *.
  assert (Hpre : ∀ n, n ≤ Dims.height dims →
            ∃ s, foldl_result f t (seq 0 n) = Ok s).
  { intros n Hn.
    replace (Dims.height dims) with (n + (Dims.height dims - n)) in Hrun
      by lia.
    rewrite seq_app, foldl_result_app in Hrun.
    destruct (foldl_result f t (seq 0 n)) as [s|]; [by exists s | done]. }
  exists (λ n, match foldl_result f t (seq 0 n) with
               | Ok s => s
               | Throw _ => []
               end).
  split; [done|]. split; [by rewrite Hrun|].
  intros y Hy.
  destruct (Hpre y ltac:(lia)) as [s Hs].
  destruct (Hpre (S y) ltac:(lia)) as [s' Hs'].
  rewrite Hs, Hs'. rewrite seq_S, foldl_result_app, Hs in Hs'.
  simpl in Hs'. unfold f in Hs' at 1.
  destruct (set_bytes (patchRow patch dims y) (rowOffset dims width y) s)
    as [s1|] eqn:Hset; [|done].
  simpl in Hs'. injection Hs' as <-.
  apply set_bytes_Ok in Hset as [Hfit ->].
  rewrite length_patchRow_full in Hfit by done. split.
  - intros k Hk.
    rewrite list_lookup_inserts
      by (rewrite ?length_patchRow_full by done; lia).
    replace (rowOffset dims width y + k - rowOffset dims width y)
      with k by lia.
    by apply lookup_patchRow.
  - intros i Hi%bool_decide_eq_false.
    destruct (decide (i < rowOffset dims width y)).
    + by rewrite list_lookup_inserts_lt.
    + rewrite list_lookup_inserts_ge; [done|].
      rewrite length_patchRow_full by done. lia.
Qed.

(** When the rows do not overlap, the row copies leave every row of the
    patch at its offset. *)
Lemma rows_settled (steps : nat → list byte) (patch : list byte)
    dims width :
  Dims.width dims ≤ width →
  (∀ y, y < Dims.height dims →
     (∀ k, k < Dims.width dims * 4 →
        steps (S y) !! (rowOffset dims width y + k)
        = patch !! (y * (Dims.width dims * 4) + k))
     ∧ (∀ i, inRow dims width y i = false →
          steps (S y) !! i = steps y !! i)) →
  (∀ y k, y < Dims.height dims → k < Dims.width dims * 4 →
     steps (Dims.height dims) !! (rowOffset dims width y + k)
     = patch !! (y * (Dims.width dims * 4) + k))
  ∧ (∀ i, (∀ y, y < Dims.height dims → inRow dims width y i = false) →
       steps (Dims.height dims) !! i = steps 0 !! i).
Proof.
  intros Hw Hstep.
  assert (Hgen : ∀ n, n ≤ Dims.height dims →
    (∀ y k, y < n → k < Dims.width dims * 4 →
       steps n !! (rowOffset dims width y + k)
       = patch !! (y * (Dims.width dims * 4) + k))
    ∧ (∀ i, (∀ y, y < n → inRow dims width y i = false) →
         steps n !! i = steps 0 !! i)).
  { induction n as [|n IH]; intros Hn.
    - split; [intros; lia | done].
    - destruct IH as [Hrows Hrest]; [lia|].
      destruct (Hstep n ltac:(lia)) as [Hnew Hold]. split.
      + intros y k Hy Hk. destruct (decide (y = n)) as [->|Hne].
        * by apply Hnew.
        * pose proof (rowOffset_apart dims width y n Hw ltac:(lia)).
          rewrite Hold; [apply Hrows; lia|].
          apply bool_decide_eq_false. lia.
      + intros i Hi. rewrite Hold by (apply Hi; lia).
        apply Hrest. intros; apply Hi; lia. }
  apply Hgen. lia.
Qed.

(** *** When the row copies fit *)

Lemma patchRows_fits patch dims width t :
  match patchRows patch dims width t with
  | Ok _ =>
      forallb (rowFits (length t) patch dims width)
              (seq 0 (Dims.height dims)) = true
  | Throw e =>
      e = RangeError
      ∧ forallb (rowFits (length t) patch dims width)
                (seq 0 (Dims.height dims)) = false
  end.
Proof.
  unfold patchRows. generalize (seq 0 (Dims.height dims)). intros ys.
  revert t. induction ys as [|y ys IH]; intros t; simpl; [done|].
  rewrite bind_result. unfold rowFits at 1 3.
  destruct (decide (rowOffset dims width y + length (patchRow patch dims y)
                    ≤ length t)) as [Hfit|Hfit].
  - rewrite set_bytes_fits, !bool_decide_eq_true_2 by done. simpl.
    specialize (IH (list_inserts (rowOffset dims width y)
                      (patchRow patch dims y) t)).
    by rewrite length_inserts in IH.
  - rewrite set_bytes_overflow, !bool_decide_eq_false_2 by lia. done.
Qed.

Lemma patchRows_length patch dims width t t' :
  patchRows patch dims width t = Ok t' → length t' = length t.
Proof.
  unfold patchRows. generalize (seq 0 (Dims.height dims)). intros ys.
  revert t. induction ys as [|y ys IH]; intros t; simpl; [naive_solver|].
  rewrite bind_result.
  destruct (set_bytes _ _ t) as [t1|] eqn:Hset; [|done].
  intros ->%IH. by eapply set_bytes_length.
Qed.

(** ** Invariants of the loop *)

Lemma wf_init width height : wfContents width height (initContents width height).
Proof. split; simpl; [apply length_replicate | constructor | done]. Qed.

Lemma disposedBytes_wf width height c :
  wfContents width height c →
  ∃ d, disposedBytes width c = Ok d ∧ length d = width * height * 4.
Proof.
  intros [Hc _ Hs]. unfold disposedBytes.
  destruct (c_prevDisposal c =? 2), (c_prevRect c) as [rect|];
    try (eexists; split; [reflexivity|]; by rewrite length_clearRows);
    destruct (c_prevDisposal c =? 3), (c_snapshot c) as [s|];
    try (eexists; split; [reflexivity|]; done);
    (exists s; rewrite set_bytes_whole by (rewrite Hc; by apply Hs);
     split; [done|by apply Hs]).
Qed.

Lemma compositeBytes_fits width height frame t :
  length t = width * height * 4 →
  match compositeBytes width height frame t with
  | Ok t' => patchFits width height frame = true
             ∧ length t' = width * height * 4
  | Throw e => e = RangeError ∧ patchFits width height frame = false
  end.
Proof.
  intros Ht. unfold compositeBytes, patchFits. case_decide as Hfull.
  - rewrite set_bytes_whole by lia. rewrite bool_decide_eq_true_2 by done.
    done.
  - rewrite bool_decide_eq_false_2 by done. simpl.
    pose proof (patchRows_fits (Frame.patch frame) (Frame.dims frame) width t)
      as Hfit.
    rewrite Ht in Hfit.
    destruct (patchRows _ _ _ t) as [t'|e] eqn:Hrun; [|done].
    split; [done|]. apply patchRows_length in Hrun. lia.
Qed.

(** A step throws exactly when the patch does not fit, and then it is the
    [RangeError] of [set]; otherwise the invariant is kept and one frame is
    appended. *)
Lemma contentsStep_wf width height c frame :
  wfContents width height c →
  match contentsStep width height c frame with
  | Ok c' => patchFits width height frame = true
             ∧ wfContents width height c'
             ∧ length (c_emitted c') = S (length (c_emitted c))
  | Throw e => e = RangeError ∧ patchFits width height frame = false
  end.
Proof.
  intros Hwf. destruct (disposedBytes_wf _ _ _ Hwf) as (d & Hd & Hlen).
  unfold contentsStep. rewrite Hd. simpl.
  pose proof (compositeBytes_fits width height frame d Hlen) as Hfit.
  destruct (compositeBytes width height frame d) as [t|e]; [|done].
  destruct Hfit as [Hfit Ht]. simpl. split; [done|]. split.
  - split; simpl.
    + done.
    + apply Forall_app. split; [apply Hwf|]. by constructor.
    + case_decide; naive_solver.
  - rewrite length_app. simpl. lia.
Qed.

Lemma foldl_contentsStep_wf width height frames : ∀ c,
  wfContents width height c →
  match foldl_result (contentsStep width height) c frames with
  | Ok c' => forallb (patchFits width height) frames = true
             ∧ wfContents width height c'
             ∧ length (c_emitted c') = length (c_emitted c) + length frames
  | Throw e => e = RangeError
               ∧ forallb (patchFits width height) frames = false
  end.
Proof.
  induction frames as [|f frames IH]; intros c Hwf; simpl.
  - split; [done|]. split; [done|lia].
  - rewrite bind_result.
    pose proof (contentsStep_wf width height c f Hwf) as Hstep.
    destruct (contentsStep width height c f) as [c1|e].
    + destruct Hstep as (-> & Hwf1 & Hlen1). simpl.
      specialize (IH c1 Hwf1).
      destruct (foldl_result _ c1 frames) as [c2|e]; [|done].
      destruct IH as (-> & Hwf2 & Hlen2). split; [done|]. split; [done|lia].
    + destruct Hstep as [-> ->]. done.
Qed.

Lemma contentsRun_wf frames width height :
  match contentsRun frames width height with
  | Ok c => forallb (patchFits width height) frames = true
            ∧ wfContents width height c
            ∧ length (c_emitted c) = length frames
  | Throw e => e = RangeError
               ∧ forallb (patchFits width height) frames = false
  end.
Proof.
  apply (foldl_contentsStep_wf width height frames _ (wf_init width height)).
Qed.

(** The state reached by [buildLoop] decomposes at the last frame. *)
Lemma buildLoop_snoc frames frame width height (h0 : Heap) :
  buildLoop (frames ++ [frame]) width height h0
  = (cv ← buildLoop frames width height;
     v' ← frameStep cv.1 width height cv.2 frame;
     mret (cv.1, v')) h0.
Proof.
  unfold buildLoop. rewrite !bind_run. unfold new_array.
  rewrite !bind_run, for_each_app, bind_run.
  destruct (for_each _ initVars frames _) as [[v h]|]; [|done].
  simpl. rewrite !bind_run.
  by destruct (frameStep _ _ _ v frame h) as [[v' h']|].
Qed.

Lemma buildLoop_snoc_inv frames frame width height canvas v' h' :
  buildLoop (frames ++ [frame]) width height [] = Ok ((canvas, v'), h') →
  ∃ v h, buildLoop frames width height [] = Ok ((canvas, v), h)
         ∧ frameStep canvas width height v frame h = Ok (v', h').
Proof.
  rewrite buildLoop_snoc, bind_run.
  destruct (buildLoop frames width height []) as [[[c v] h]|]; [|done].
  simpl. rewrite bind_run.
  destruct (frameStep c width height v frame h) as [[v1 h1]|] eqn:Hstep;
    [|done].
  simpl. intros [= <- <- <-]. by eexists _, _.
Qed.

(** A reached state of the store, read through [sim]. *)
Lemma buildLoop_reached frames width height canvas v h :
  buildLoop frames width height [] = Ok ((canvas, v), h) →
  ∃ c, contentsRun frames width height = Ok c
       ∧ sim canvas h v c ∧ wfContents width height c.
Proof.
  intros Hrun. pose proof (buildLoop_sim frames width height []) as Hsim.
  pose proof (contentsRun_wf frames width height) as Hwf.
  destruct (contentsRun frames width height) as [c|e].
  - destruct Hsim as (v1 & h1 & Hrun1 & Hsim). rewrite Hrun in Hrun1.
    simplify_eq/=. exists c. by destruct Hwf as (_ & ? & _).
  - congruence.
Qed.

Lemma contentsStep_inv width height c frame c' :
  contentsStep width height c frame = Ok c' →
  ∃ d t, disposedBytes width c = Ok d
    ∧ compositeBytes width height frame d = Ok t
    ∧ c' = {| c_canvas := t;
              c_emitted := c_emitted c ++ [(t, Frame.delay frame)];
              c_prevDisposal := default 0 (Frame.disposalType frame);
              c_prevRect := Some (Frame.dims frame);
              c_snapshot := if decide (Frame.disposalType frame = Some 3)
                            then Some d else None |}.
Proof.
  unfold contentsStep. rewrite bind_result.
  destruct (disposedBytes width c) as [d|]; [|done]. rewrite bind_result.
  destruct (compositeBytes width height frame d) as [t|] eqn:Ht; [|done].
  cbv [mret Result_ret]. intros [= <-]. by exists d, t.
Qed.

(** A successful iteration, read through [sim]. *)
Lemma frameStep_inv canvas width height v frame h v' h' c :
  sim canvas h v c → wfContents width height c →
  frameStep canvas width height v frame h = Ok (v', h') →
  ∃ c', contentsStep width height c frame = Ok c'
        ∧ sim canvas h' v' c' ∧ wfContents width height c'
        ∧ preserves canvas h h'.
Proof.
  intros Hsim Hwf Hstep.
  pose proof (frameStep_sim canvas width height h v c frame Hsim) as Hs.
  pose proof (contentsStep_wf width height c frame Hwf) as Hw.
  destruct (contentsStep width height c frame) as [c'|e]; [|congruence].
  destruct Hs as (v1 & h1 & Hstep1 & Hsim1 & Hp).
  rewrite Hstep in Hstep1. simplify_eq.
  destruct Hw as (_ & Hwf' & _). by exists c'.
Qed.

Lemma applyDisposal_contents canvas width h v c h' :
  sim canvas h v c →
  applyDisposal canvas width v h = Ok (tt, h') →
  disposedBytes width c = Ok (contents h' canvas)
  ∧ h' = <[canvas := contents h' canvas]> h.
Proof.
  intros Hsim. rewrite (applyDisposal_run _ _ _ _ _ Hsim).
  destruct (disposedBytes width c) as [d|]; [|done]. intros [= <-].
  assert (contents (<[canvas := d]> h) canvas = d) as ->; [|done].
  apply contents_lookup, list_lookup_insert_eq.
  eapply lookup_lt_Some, Hsim.
Qed.

(** The state after the iteration of [frame], in full. *)
Lemma buildLoop_last frames frame width height canvas v h :
  buildLoop (frames ++ [frame]) width height [] = Ok ((canvas, v), h) →
  ∃ c0 d t,
    wfContents width height c0
    ∧ disposedBytes width c0 = Ok d
    ∧ compositeBytes width height frame d = Ok t
    ∧ sim canvas h v
        {| c_canvas := t;
           c_emitted := c_emitted c0 ++ [(t, Frame.delay frame)];
           c_prevDisposal := default 0 (Frame.disposalType frame);
           c_prevRect := Some (Frame.dims frame);
           c_snapshot := if decide (Frame.disposalType frame = Some 3)
                         then Some d else None |}
    ∧ length t = width * height * 4
    ∧ length d = width * height * 4.
Proof.
  intros (v0 & h0 & Hrun & Hstep)%buildLoop_snoc_inv.
  apply buildLoop_reached in Hrun as (c0 & _ & Hsim0 & Hwf0).
  destruct (frameStep_inv _ _ _ _ _ _ _ _ _ Hsim0 Hwf0 Hstep)
    as (c & Hc & Hsim & Hwf & _).
  apply contentsStep_inv in Hc as (d & t & Hd & Ht & ->).
  exists c0, d, t. split_and!; try done.
  - apply Hwf.
  - destruct (disposedBytes_wf _ _ _ Hwf0) as (d' & Hd' & Hlen). congruence.
Qed.

(** ** Claims on the reconstructor *)

(** C2, as the code has it.  After a frame whose disposal is
    RestoreBackground (2) and whose rectangle does not pass the right edge
    of the canvas, the disposal step that precedes the next frame zeroes
    exactly the bytes of the pixels of that frame's rectangle and leaves
    every other byte of the canvas, and every other array, as it was. *)
Theorem restore_background_clears_region
    frames frame width height canvas v h :
  buildLoop (frames ++ [frame]) width height [] = Ok ((canvas, v), h) →
  Frame.disposalType frame = Some 2 →
  Dims.left (Frame.dims frame) + Dims.width (Frame.dims frame) ≤ width →
  ∃ h', applyDisposal canvas width v h = Ok (tt, h')
    ∧ preserves canvas h h'
    ∧ length (contents h canvas) = width * height * 4
    ∧ length (contents h' canvas) = width * height * 4
    ∧ ∀ i, i < width * height * 4 →
        contents h' canvas !! i
        = if inRect (Frame.dims frame) (byteX width i) (byteY width i)
          then Some x00
          else contents h canvas !! i.
Proof.
  intros (c0 & d & t & _ & _ & _ & Hsim & Ht & _)%buildLoop_last Hdisp Hw.
  rewrite (applyDisposal_run _ _ _ _ _ Hsim). unfold disposedBytes.
  rewrite Hdisp. simpl.
  pose proof (sim_canvas _ _ _ _ Hsim) as Hc. simpl in Hc.
  assert (Hlt : canvas < length h) by eauto using lookup_lt_Some.
  eexists. split; [reflexivity|]. split; [apply preserves_insert|].
  rewrite (contents_lookup _ _ _ Hc).
  rewrite (contents_lookup _ canvas (clearRows (Frame.dims frame) width t))
    by by apply list_lookup_insert_eq.
  rewrite length_clearRows. split_and!; try done.
  intros i Hi. apply lookup_clearRows; [done|lia].
Qed.

Example reconstruct_red_blue :
  reconstruct [redFrame; bluePatch] 2 2
  = Ok [(redBytes ++ redBytes ++ redBytes ++ redBytes, 5%Z); (redBytes ++ redBytes ++ redBytes ++ blueBytes, 3%Z)].
Proof. reflexivity. Qed.

Lemma restore_background_clears_region_witness :
  ∃ canvas v h h',
    buildLoop ([redFrame] ++ [bluePatch]) 2 2 [] = Ok ((canvas, v), h)
    ∧ applyDisposal canvas 2 v h = Ok (tt, h')
    ∧ contents h canvas = redBytes ++ redBytes ++ redBytes ++ blueBytes
    ∧ contents h' canvas = redBytes ++ redBytes ++ redBytes ++ clearBytes.
Proof.
  destruct (restore_background_clears_region [redFrame] bluePatch 2 2 0 _ _
              eq_refl eq_refl ltac:(simpl; lia)) as (h' & Hrun & _).
  eexists 0, _, _, h'. split; [reflexivity|]. split; [exact Hrun|].
  vm_compute in Hrun. injection Hrun as <-. split; reflexivity.
Defined.

(** C2, as stated, fails for a rectangle that passes the right edge of the
    canvas, which the reconstructor accepts: the span cleared for a row runs
    on into the next row, and the disposal step zeroes a pixel that lies
    outside the rectangle. *)
Lemma restore_background_clears_outside_wide_region :
  ∃ canvas v h h',
    buildLoop [redFrame; wideFrame] 2 2 [] = Ok ((canvas, v), h)
    ∧ Frame.disposalType wideFrame = Some 2
    ∧ applyDisposal canvas 2 v h = Ok (tt, h')
    ∧ inRect (Frame.dims wideFrame) (byteX 2 11) (byteY 2 11) = false
    ∧ contents h canvas !! 11 = Some xff
    ∧ contents h' canvas !! 11 = Some x00.
Proof.
  eexists 0, _, _, _.
  split; [reflexivity|]. split; [reflexivity|]. split; [reflexivity|].
  split; [reflexivity|]. split; reflexivity.
Qed.

(** C1, as the code has it.  For a frame A whose disposal is
    RestoreToPrevious (3): the snapshot kept for it is an array of its own
    holding the canvas as it was immediately before A was composited (after
    the disposal step of A's own iteration), and the disposal step that
    precedes the next frame restores the canvas to exactly those bytes,
    whatever A drew. *)
Theorem restore_previous_round_trip
    frames frameA width height canvas v h h0 v' h' :
  buildLoop frames width height [] = Ok ((canvas, v), h) →
  applyDisposal canvas width v h = Ok (tt, h0) →
  frameStep canvas width height v frameA h = Ok (v', h') →
  Frame.disposalType frameA = Some 3 →
  ∃ snapshot h'',
    restoreSnapshot v' = Some snapshot
    ∧ snapshot ≠ canvas
    ∧ contents h' snapshot = contents h0 canvas
    ∧ applyDisposal canvas width v' h' = Ok (tt, h'')
    ∧ contents h'' canvas = contents h0 canvas.
Proof.
  intros (c & _ & Hsim & Hwf)%buildLoop_reached Hdisp Hstep HA.
  destruct (applyDisposal_contents _ _ _ _ _ _ Hsim Hdisp) as [Hd _].
  destruct (frameStep_inv _ _ _ _ _ _ _ _ _ Hsim Hwf Hstep)
    as (c' & Hc' & Hsim' & Hwf' & _).
  apply contentsStep_inv in Hc' as (d & t & Hd' & Ht & ->).
  rewrite Hd in Hd'. injection Hd' as <-.
  rewrite decide_True in Hsim', Hwf' by done.
  pose proof (sim_snapshot _ _ _ _ Hsim') as Hs. simpl in Hs.
  inversion Hs as [snapshot s [Hne Hsnap] Hv Hc|]; subst s.
  pose proof (sim_canvas _ _ _ _ Hsim') as Hcv. simpl in Hcv.
  exists snapshot, (<[canvas := contents h0 canvas]> h').
  split; [done|]. split; [done|].
  split; [by apply contents_lookup|].
  rewrite (applyDisposal_run _ _ _ _ _ Hsim'). unfold disposedBytes.
  rewrite HA. simpl. rewrite set_bytes_whole.
  - split; [done|]. apply contents_lookup, list_lookup_insert_eq.
    eauto using lookup_lt_Some.
  - pose proof (wf_canvas _ _ _ Hwf') as Hlen.
    pose proof (wf_snapshot _ _ _ Hwf' _ eq_refl) as Hlen'.
    simpl in Hlen, Hlen'. congruence.
Qed.

Lemma restore_previous_round_trip_witness :
  ∃ snapshot h' h'',
    frameStep 0 1 1 initVars restoreFrame [clearBytes]
    = Ok (mkVars [(2, 10%Z)] 3 (Some (Dims.mk 0 0 1 1)) (Some snapshot), h')
    ∧ contents h' 0 = redBytes
    ∧ contents h' snapshot = clearBytes
    ∧ applyDisposal 0 1 (mkVars [(2, 10%Z)] 3 (Some (Dims.mk 0 0 1 1))
                           (Some snapshot)) h' = Ok (tt, h'')
    ∧ contents h'' 0 = clearBytes.
Proof.
  destruct (restore_previous_round_trip [] restoreFrame 1 1 0 initVars
              [clearBytes] [clearBytes] _ _ eq_refl eq_refl eq_refl eq_refl)
    as (snapshot & h'' & Hs & _ & Hsnap & Hdisp & Hback).
  exists 1, [redBytes; clearBytes; redBytes], h''.
  injection Hs as <-. split_and!; done.
Defined.

(** C1, as stated, fails: after frame A (RestoreToPrevious) and a second
    frame that is kept, the disposal step that precedes a third frame leaves
    the canvas as the second frame drew it, not as it was before A.  The
    restoration already took place before the second frame. *)
Lemma restore_previous_not_before_third_frame :
  ∃ canvas v0 h0 v2 h2 h3,
    buildLoop [] 1 1 [] = Ok ((canvas, v0), h0)
    ∧ contents h0 canvas = clearBytes
    ∧ buildLoop [restoreFrame; keepFrame] 1 1 [] = Ok ((canvas, v2), h2)
    ∧ applyDisposal canvas 1 v2 h2 = Ok (tt, h3)
    ∧ contents h3 canvas = blueBytes
    ∧ contents h3 canvas ≠ contents h0 canvas.
Proof.
  eexists 0, _, _, _, _, _.
  split; [reflexivity|]. split; [reflexivity|]. split; [reflexivity|].
  split; [reflexivity|]. split; [reflexivity|]. vm_compute. discriminate.
Qed.

(** C8. After a frame whose disposal is not RestoreToPrevious the loop holds
    no snapshot, so the disposal step of the next frame applies none: it
    leaves the canvas as it is, or clears the rectangle of that frame when
    its disposal is RestoreBackground.  A snapshot taken for an earlier frame
    is gone. *)
Theorem stale_snapshot_never_reused frames frame width height canvas v h :
  buildLoop (frames ++ [frame]) width height [] = Ok ((canvas, v), h) →
  Frame.disposalType frame ≠ Some 3 →
  restoreSnapshot v = None
  ∧ ∃ h', applyDisposal canvas width v h = Ok (tt, h')
      ∧ preserves canvas h h'
      ∧ contents h' canvas
        = if decide (Frame.disposalType frame = Some 2)
          then clearRows (Frame.dims frame) width (contents h canvas)
          else contents h canvas.
Proof.
  intros (c0 & d & t & _ & _ & _ & Hsim & _)%buildLoop_last Hdisp.
  rewrite decide_False in Hsim by done.
  pose proof (sim_snapshot _ _ _ _ Hsim) as Hs. simpl in Hs.
  inversion Hs as [|Hv Hc]. split; [done|].
  pose proof (sim_canvas _ _ _ _ Hsim) as Hcv. simpl in Hcv.
  assert (Hlt : canvas < length h) by eauto using lookup_lt_Some.
  rewrite (applyDisposal_run _ _ _ _ _ Hsim). unfold disposedBytes. simpl.
  rewrite (contents_lookup _ _ _ Hcv).
  destruct (Frame.disposalType frame) as [[|[|[|[|n]]]]|] eqn:Hty;
    simpl; try done;
    (eexists; split; [reflexivity|]; split; [apply preserves_insert|];
     by apply contents_lookup, list_lookup_insert_eq).
Qed.

Lemma stale_snapshot_never_reused_witness :
  ∃ v h h',
    buildLoop ([restoreFrame] ++ [keepFrame]) 1 1 [] = Ok ((0, v), h)
    ∧ restoreSnapshot v = None
    ∧ applyDisposal 0 1 v h = Ok (tt, h')
    ∧ contents h' 0 = blueBytes.
Proof.
  destruct (stale_snapshot_never_reused [restoreFrame] keepFrame 1 1 0 _ _
              eq_refl ltac:(discriminate))
    as (Hnone & h' & Hdisp & _ & Hbytes).
  eexists _, _, h'. split; [reflexivity|]. split; [exact Hnone|].
  split; [exact Hdisp|]. rewrite Hbytes. reflexivity.
Defined.

(** The loop never resizes the store except by allocating. *)
Lemma for_each_length {S A} (body : S → A → Js S) xs :
  (∀ s x h s' h', body s x h = Ok (s', h') → length h' = length h) →
  ∀ s h s' h', for_each body s xs h = Ok (s', h') → length h' = length h.
Proof.
  intros Hbody. induction xs as [|x xs IH]; intros s h s' h'; simpl.
  - by intros [= _ <-].
  - rewrite bind_run. destruct (body s x h) as [[s1 h1]|] eqn:Hx; [|done].
    intros Hrest%IH. rewrite Hrest. by eapply Hbody.
Qed.

Lemma ta_set_length target source offset (h h' : Heap) :
  ta_set target source offset h = Ok (tt, h') → length h' = length h.
Proof.
  unfold ta_set. destruct (set_bytes _ _ _); [|done]. intros [= <-].
  apply length_insert.
Qed.

Lemma applyDisposal_length canvas width v (h h' : Heap) :
  applyDisposal canvas width v h = Ok (tt, h') → length h' = length h.
Proof.
  unfold applyDisposal.
  assert (Hclear : ∀ rect, clearRectPixels canvas rect width h = Ok (tt, h')
                           → length h' = length h).
  { intros rect. unfold clearRectPixels, for_range.
    apply for_each_length. intros [] y h1 [] h2. unfold ta_fill.
    intros [= <-]. apply length_insert. }
  destruct (prevDisposal v =? 2), (prevRect v) as [rect|]; try apply Hclear;
    destruct (prevDisposal v =? 3), (restoreSnapshot v) as [s|];
    try (by intros [= <-]); apply ta_set_length.
Qed.

Lemma composite_length canvas width height frame (h h' : Heap) :
  composite canvas width height frame h = Ok (tt, h') → length h' = length h.
Proof.
  unfold composite. case_decide; [apply ta_set_length|].
  unfold applyPatch, for_range. apply for_each_length.
  intros [] y h1 [] h2. apply ta_set_length.
Qed.

(** C10. A frame whose [disposalType] is absent is handled exactly as one
    whose [disposalType] is 0: the iteration is the same, no snapshot is
    taken (the only array allocated is the emitted frame), and the disposal
    step of the next frame leaves the store untouched. *)
Theorem absent_disposal_is_none canvas width height v frame h :
  Frame.disposalType frame = None →
  frameStep canvas width height v frame h
  = frameStep canvas width height v (withDisposal frame (Some 0)) h
  ∧ ∀ v' h', frameStep canvas width height v frame h = Ok (v', h') →
      prevDisposal v' = 0
      ∧ restoreSnapshot v' = None
      ∧ length h' = S (length h)
      ∧ applyDisposal canvas width v' h' = Ok (tt, h').
Proof.
  intros Hnone. split.
  - unfold frameStep, takeSnapshot, composite, withDisposal. simpl.
    rewrite Hnone. simpl. done.
  - intros v' h'. unfold frameStep, takeSnapshot. rewrite Hnone. simpl.
    rewrite bind_run.
    destruct (applyDisposal canvas width v h) as [[[] h1]|] eqn:Hd; [|done].
    apply applyDisposal_length in Hd. rewrite bind_run.
    cbv [mret Js_ret]. rewrite bind_run.
    destruct (composite canvas width height frame h1) as [[[] h2]|] eqn:Hc;
      [|done].
    apply composite_length in Hc. rewrite bind_run. unfold copy_array.
    intros [= <- <-]. simpl.
    split; [done|]. split; [done|]. split; [|done].
    rewrite length_app. simpl. lia.
Qed.

Lemma absent_disposal_is_none_witness :
  ∃ data h',
    frameStep 0 1 1 initVars (Frame.mk 7 None (Dims.mk 0 0 1 1) redBytes)
              [clearBytes]
    = Ok (mkVars [(data, 7%Z)] 0 (Some (Dims.mk 0 0 1 1)) None, h')
    ∧ h' = [redBytes; redBytes]
    ∧ applyDisposal 0 1 (mkVars [(data, 7%Z)] 0 (Some (Dims.mk 0 0 1 1)) None)
                    h' = Ok (tt, h').
Proof.
  destruct (absent_disposal_is_none 0 1 1 initVars
              (Frame.mk 7 None (Dims.mk 0 0 1 1) redBytes) [clearBytes]
              eq_refl) as [_ Hnext].
  destruct (Hnext _ _ eq_refl) as (_ & _ & _ & Hdisp).
  exists 1, [redBytes; redBytes]. split; [reflexivity|]. split; [reflexivity|].
  exact Hdisp.
Defined.

(** Frames are only ever appended to the output. *)
Lemma foldl_contentsStep_emitted width height frames : ∀ c c',
  foldl_result (contentsStep width height) c frames = Ok c' →
  ∃ more, c_emitted c' = c_emitted c ++ more.
Proof.
  induction frames as [|f frames IH]; intros c c'; simpl.
  - intros [= <-]. exists []. by rewrite app_nil_r.
  - rewrite bind_result.
    destruct (contentsStep width height c f) as [c1|] eqn:Hstep; [|done].
    intros (more & ->)%IH.
    apply contentsStep_inv in Hstep as (d & t & _ & _ & ->). simpl.
    eexists. by rewrite <- app_assoc.
Qed.

(** C3, as the code has it.  Compositing a patch: a patch of the size of
    the canvas replaces the canvas.  Any other patch that holds at least the
    bytes of all its rows is copied row by row, in order: [steps y] being
    the canvas before the copy of row [y], that copy writes exactly the
    [width * 4] bytes of the patch from offset [y * width * 4] at canvas
    offset [rowOffset] and leaves every other byte as it was; when the
    rectangle is no wider than the canvas the rows do not overlap, so the
    canvas ends up with every row of the patch at its offset, its other
    bytes being as the disposal step left them.  The frame emitted for the
    patch is an array of its own holding these bytes with the delay of the
    patch, and the caller reads the same bytes once all later frames have
    been processed. *)
Theorem composite_patch_and_emit
    frames frame rest width height canvas v h hd full :
  buildLoop frames width height [] = Ok ((canvas, v), h) →
  applyDisposal canvas width v h = Ok (tt, hd) →
  reconstruct (frames ++ frame :: rest) width height = Ok full →
  let patch := Frame.patch frame in
  let dims := Frame.dims frame in
  ∃ v' h' data drawn,
    frameStep canvas width height v frame h = Ok (v', h')
    ∧ contents h' canvas = drawn
    ∧ length drawn = width * height * 4
    ∧ (length patch = width * height * 4 → drawn = patch)
    ∧ (length patch ≠ width * height * 4 →
       Dims.width dims * Dims.height dims * 4 ≤ length patch →
       ∃ steps : nat → list byte,
         steps 0 = contents hd canvas
         ∧ steps (Dims.height dims) = drawn
         ∧ (∀ y, y < Dims.height dims →
              (∀ k, k < Dims.width dims * 4 →
                 steps (S y) !! (rowOffset dims width y + k)
                 = patch !! (y * (Dims.width dims * 4) + k))
              ∧ (∀ i, inRow dims width y i = false →
                   steps (S y) !! i = steps y !! i))
         ∧ (Dims.width dims ≤ width →
              (∀ y k, y < Dims.height dims → k < Dims.width dims * 4 →
                 drawn !! (rowOffset dims width y + k)
                 = patch !! (y * (Dims.width dims * 4) + k))
              ∧ (∀ i, (∀ y, y < Dims.height dims →
                         inRow dims width y i = false) →
                   drawn !! i = contents hd canvas !! i)))
    ∧ fullFrames v' = fullFrames v ++ [(data, Frame.delay frame)]
    ∧ data ≠ canvas
    ∧ contents h' data = drawn
    ∧ full !! length frames = Some (drawn, Frame.delay frame).
Proof.
  intros Hreach Hdisp Hfull patch dims.
  pose proof Hreach as (c0 & Hrun0 & Hsim0 & Hwf0)%buildLoop_reached.
  destruct (applyDisposal_contents _ _ _ _ _ _ Hsim0 Hdisp) as [Hd _].
  rewrite reconstruct_contents in Hfull. unfold contentsRun in Hfull, Hrun0.
  rewrite foldl_result_app, Hrun0 in Hfull. simpl in Hfull.
  rewrite bind_result in Hfull.
  pose proof (frameStep_sim canvas width height h v c0 frame Hsim0) as Hstep.
  destruct (contentsStep width height c0 frame) as [c1|] eqn:Hc1; [|done].
  destruct Hstep as (v' & h' & Hstep & Hsim1 & _).
  pose proof Hc1 as (d & t & Hd' & Ht & ->)%contentsStep_inv.
  rewrite Hd in Hd'. injection Hd' as <-.
  pose proof (contentsStep_wf width height c0 frame Hwf0) as Hwf1.
  rewrite Hc1 in Hwf1. destruct Hwf1 as (_ & Hwf1 & _).
  pose proof (wf_canvas _ _ _ Hwf1) as Hlen. simpl in Hlen.
  pose proof (sim_canvas _ _ _ _ Hsim1) as Hcv. simpl in Hcv.
  pose proof (sim_emitted _ _ _ _ Hsim1) as Hem. simpl in Hem.
  apply Forall2_app_inv_r in Hem as (old & new & Hold & Hnew & Hv').
  apply Forall2_length in Hold as Holdlen.
  inversion Hnew as [|[data dl] ? ? new' (Hne & Hdata & Hdelay) Hnil];
    subst. inversion Hnil; subst. simpl in *.
  pose proof (sim_emitted _ _ _ _ Hsim0) as Hem0.
  assert (old = fullFrames v) as ->.
  { unfold frameStep in Hstep. rewrite bind_run in Hstep.
    destruct (applyDisposal canvas width v h) as [[[] h1]|]; [|done].
    rewrite bind_run in Hstep.
    destruct (takeSnapshot canvas frame h1) as [[s h2]|]; [|done].
    rewrite bind_run in Hstep.
    destruct (composite canvas width height frame h2) as [[[] h3]|]; [|done].
    rewrite bind_run in Hstep. unfold copy_array in Hstep.
    injection Hstep as Hv _. rewrite <- Hv in Hv'. simpl in Hv'.
    by apply app_inj_tail in Hv' as [-> _]. }
  exists v', h', data, t. split; [done|].
  split; [by apply contents_lookup|]. split; [done|].
  pose proof (wf_canvas _ _ _ Hwf0) as Hlen0.
  destruct (disposedBytes_wf _ _ _ Hwf0) as (d' & Hd' & Hdlen).
  rewrite Hd in Hd'. injection Hd' as <-.
  unfold compositeBytes in Ht. fold patch dims in Ht. split_and!.
  - intros Hfast. rewrite decide_True in Ht by done.
    rewrite set_bytes_whole in Ht by lia. by injection Ht.
  - intros Hslow Hp. rewrite decide_False in Ht by done.
    destruct (patchRows_steps patch dims width _ _ Ht Hp)
      as (steps & Hfirst & Hlast & Hsteps).
    exists steps. split; [done|]. split; [done|]. split; [done|].
    intros Hw. rewrite <- Hfirst, <- Hlast.
    by apply rows_settled.
  - by rewrite Hv', Hdelay.
  - done.
  - by apply contents_lookup.
  - destruct (foldl_result _ _ rest) as [c2|] eqn:Hrest; [|done].
    apply foldl_contentsStep_emitted in Hrest as (more & Hmore).
    simpl in Hfull, Hmore. injection Hfull as <-. rewrite Hmore.
    pose proof (contentsRun_wf frames width height) as Hwf.
    unfold contentsRun in Hwf. rewrite Hrun0 in Hwf.
    destruct Hwf as (_ & _ & <-).
    rewrite <- app_assoc, lookup_app_r by lia.
    by rewrite Nat.sub_diag.
Qed.

Lemma composite_patch_and_emit_witness :
  ∃ drawn,
    reconstruct ([redFrame] ++ bluePatch :: [redFrame]) 2 2
    = Ok [(redBytes ++ redBytes ++ redBytes ++ redBytes, 5%Z); (drawn, 3%Z);
          (redBytes ++ redBytes ++ redBytes ++ redBytes, 5%Z)]
    ∧ drawn = redBytes ++ redBytes ++ redBytes ++ blueBytes
    ∧ drawn !! (rowOffset (Dims.mk 1 1 1 1) 2 0 + 3) = blueBytes !! 3
    ∧ drawn !! 0 = Some xff.
Proof.
  destruct (composite_patch_and_emit [redFrame] bluePatch [redFrame] 2 2
              0 _ _ _ _ eq_refl eq_refl eq_refl)
    as (v' & h' & data & drawn & _ & _ & _ & _ & Hrows & _ & _ & _ & Hfull).
  destruct Hrows as (steps & _ & _ & _ & Hsettled); [simpl; lia ..|].
  destruct Hsettled as [Hrow Hrest]; [simpl; lia|].
  exists drawn. vm_compute in Hfull. injection Hfull as <-.
  split; [reflexivity|]. split; [reflexivity|].
  split; [apply (Hrow 0 3); simpl; lia|].
  rewrite (Hrest 0); [reflexivity|].
  intros y Hy. apply bool_decide_eq_false. vm_compute. lia.
Defined.

(** Reconstructed frames have the size of the canvas. *)
(** C3, as stated, fails for a patch that is shorter than its rectangle,
    which the reconstructor accepts: six bytes for a rectangle of one
    column and two rows.  For row 1 only the two bytes the patch still has
    are copied; the other two bytes of the row keep what the red frame
    before had drawn there. *)
Lemma composite_short_patch_copies_less :
  ∃ drawn,
    reconstruct [redFrame; shortFrame] 2 2
    = Ok [(redBytes ++ redBytes ++ redBytes ++ redBytes, 5%Z); (drawn, 1%Z)]
    ∧ length (Frame.patch shortFrame) ≠ 2 * 2 * 4
    ∧ drawn = blueBytes ++ redBytes ++ [x00; xff; x00; xff] ++ redBytes
    ∧ Frame.patch shortFrame !! (1 * (1 * 4) + 3) = None
    ∧ drawn !! (rowOffset (Frame.dims shortFrame) 2 1 + 3) = Some xff
    ∧ redBytes !! 3 = Some xff.
Proof.
  eexists. split; [reflexivity|]. split; [simpl; lia|].
  split; [reflexivity|]. split; [reflexivity|]. split; reflexivity.
Qed.

Lemma reconstruct_frame_sizes frames width height full :
  reconstruct frames width height = Ok full →
  Forall (λ f, length f.1 = width * height * 4) full.
Proof.
  rewrite reconstruct_contents.
  pose proof (contentsRun_wf frames width height) as Hwf.
  destruct (contentsRun frames width height) as [c|e]; simpl; [|done].
  intros [= <-]. apply Hwf.
Qed.

(** C4, as the code has it.  [buildFullFrames] validates nothing itself: it
    throws exactly when some patch that is not of the size of the canvas has
    a row whose bytes would end past the end of the canvas array, and the
    error is the [RangeError] of [set]; no frames are returned then.
    Otherwise one frame of exactly [width * height * 4] bytes is returned
    for every patch, so nothing was written outside the canvas. *)
Theorem reconstruct_error_contract frames width height :
  match reconstruct frames width height with
  | Ok full =>
      forallb (patchFits width height) frames = true
      ∧ length full = length frames
      ∧ Forall (λ f, length f.1 = width * height * 4) full
  | Throw e =>
      e = RangeError ∧ forallb (patchFits width height) frames = false
  end.
Proof.
  rewrite reconstruct_contents.
  pose proof (contentsRun_wf frames width height) as Hwf.
  destruct (contentsRun frames width height) as [c|e]; simpl; [|done].
  destruct Hwf as (Hfit & Hwf & Hlen). split_and!; [done..|apply Hwf].
Qed.


(** C4, as stated, fails three times over: an empty canvas, a patch of
    neither size, and a rectangle past the right edge of the canvas are all
    reconstructed without an error. *)
Lemma reconstruct_accepts_malformed_input :
  reconstruct [Frame.mk 1 (Some 0) (Dims.mk 0 0 0 0) []] 0 5 = Ok [([], 1%Z)]
  ∧ reconstruct [Frame.mk 1 (Some 0) (Dims.mk 1 1 1 1) [xff; x00; x00]] 2 2
    = Ok [(clearBytes ++ clearBytes ++ clearBytes ++ [xff; x00; x00; x00],
           1%Z)]
  ∧ reconstruct [Frame.mk 1 (Some 0) (Dims.mk 1 0 2 1)
                   (redBytes ++ blueBytes)] 2 2
    = Ok [(clearBytes ++ redBytes ++ blueBytes ++ clearBytes, 1%Z)].
Proof. split_and!; reflexivity. Qed.

(** ** The drawing surface *)

Lemma pixelAt_lookup s x y :
  x < s_width s → y < s_height s →
  pixelAt s x y = s_pixels s !! (y * s_width s + x).
Proof.
  intros Hx Hy. unfold pixelAt, getPixel.
  replace ((0 <=? Z.of_nat x) && (Z.of_nat x <? Z.of_nat (s_width s))
           && (0 <=? Z.of_nat y) && (Z.of_nat y <? Z.of_nat (s_height s)))%Z
    with true.
  - f_equal. lia.
  - symmetry. repeat (apply andb_true_intro; split); lia.
Qed.

Lemma pixelAt_mapPixels f s x y :
  x < s_width s → y < s_height s →
  pixelAt (mapPixels f s) x y = f (Z.of_nat x) (Z.of_nat y) <$> pixelAt s x y.
Proof.
  intros Hx Hy. rewrite !pixelAt_lookup by done. unfold mapPixels. simpl.
  rewrite list_lookup_imap.
  replace ((y * s_width s + x) `mod` s_width s) with x.
  - replace ((y * s_width s + x) `div` s_width s) with y; [done|].
    apply Nat.div_unique with x; lia.
  - apply Nat.mod_unique with y; lia.
Qed.

Lemma pixelAt_is_Some s x y :
  x < s_width s → y < s_height s →
  length (s_pixels s) = s_width s * s_height s →
  is_Some (pixelAt s x y).
Proof.
  intros Hx Hy Hlen. rewrite pixelAt_lookup by done.
  apply lookup_lt_is_Some. rewrite Hlen.
  assert ((y + 1) * s_width s ≤ s_height s * s_width s)
    by (apply Nat.mul_le_mono_r; lia).
  lia.
Qed.

Lemma inSpan_forward start extent v :
  (0 ≤ extent)%Z →
  inSpan start extent v = bool_decide (start ≤ v < start + extent)%Z.
Proof.
  intros. unfold inSpan. rewrite Z.min_l, Z.max_r by lia.
  case_bool_decide; [apply andb_true_intro; split; lia|].
  apply andb_false_iff. lia.
Qed.

Lemma inSpan_backward start extent v :
  (extent ≤ 0)%Z →
  inSpan start extent v = bool_decide (start + extent ≤ v < start)%Z.
Proof.
  intros. unfold inSpan. rewrite Z.min_r, Z.max_l by lia.
  case_bool_decide; [apply andb_true_intro; split; lia|].
  apply andb_false_iff. lia.
Qed.

(** An unscaled span copies cell by cell; an unscaled backward span copies
    in reverse. *)
Lemma sample_copy s k : (0 < s)%Z → sample s s k = k.
Proof.
  intros. unfold sample. rewrite Z.abs_eq, Z.div_mul by lia.
  by rewrite (proj2 (Z.ltb_ge s 0)) by lia.
Qed.

Lemma sample_flip s k : (0 < s)%Z → sample s (- s) k = (s - 1 - k)%Z.
Proof.
  intros. unfold sample. rewrite Z.abs_opp, Z.abs_eq, Z.div_mul by lia.
  by rewrite (proj2 (Z.ltb_lt (- s) 0)) by lia.
Qed.

Lemma ceilHalf_nat n : ceilHalf (Z.of_nat n) = Z.of_nat ((n + 1) / 2).
Proof.
  unfold ceilHalf. rewrite Nat2Z.inj_div. f_equal. lia.
Qed.

(** A drawing call whose destination has the size of its source copies cell
    by cell. *)
Lemma drawCell_copy over source sx sy w h dx dy px py old :
  (0 < w)%Z → (0 < h)%Z →
  drawCell over source sx sy w h dx dy w h px py old
  = if bool_decide (dx ≤ px < dx + w ∧ dy ≤ py < dy + h)%Z
    then paint over (getPixel source (sx + (px - dx)) (sy + (py - dy))) old
    else old.
Proof.
  intros Hw Hh. unfold drawCell.
  rewrite !inSpan_forward, !Z.min_l, !sample_copy by lia.
  replace ((0 <? w) && (0 <? h))%Z with true
    by (symmetry; apply andb_true_intro; split; lia).
  simpl. repeat case_bool_decide; simpl; try done; lia.
Qed.

(** With a negative destination width of the same size, the columns are
    copied in reverse onto the [w] columns that end at [dx]. *)
Lemma drawCell_flip_x over source sx sy w h dx dy px py old :
  (0 < w)%Z → (0 < h)%Z →
  drawCell over source sx sy w h dx dy (- w) h px py old
  = if bool_decide (dx - w ≤ px < dx ∧ dy ≤ py < dy + h)%Z
    then paint over (getPixel source (sx + (dx - 1 - px)) (sy + (py - dy)))
               old
    else old.
Proof.
  intros Hw Hh. unfold drawCell.
  rewrite inSpan_backward, inSpan_forward by lia.
  rewrite Z.min_r, Z.min_l, sample_flip, sample_copy by lia.
  replace ((0 <? w) && (0 <? h))%Z with true
    by (symmetry; apply andb_true_intro; split; lia).
  replace (sx + (w - 1 - (px - (dx + - w))))%Z with (sx + (dx - 1 - px))%Z
    by lia.
  simpl. repeat case_bool_decide; simpl; try done; lia.
Qed.

Lemma drawSymmetry_left_pixelAt over ctx source x y :
  x < s_width ctx → y < s_height ctx →
  length (s_pixels ctx) = s_width ctx * s_height ctx →
  pixelAt (drawSymmetry over ctx source (Z.of_nat (s_width ctx))
             (Z.of_nat (s_height ctx)) Left) x y
  = Some (leftPixel over source (s_width ctx) x y).
Proof.
  intros Hx Hy Hlen. unfold drawSymmetry, drawImage, clearRect.
  rewrite !pixelAt_mapPixels by done.
  destruct (pixelAt_is_Some ctx x y Hx Hy Hlen) as [p0 ->]. simpl.
  f_equal. rewrite ceilHalf_nat. unfold leftPixel.
  set (W := s_width ctx) in *. set (H := s_height ctx) in *.
  assert (Hbw : 0 < (W + 1) / 2) by (apply Nat.div_str_pos; lia).
  assert (Hbw2 : (W + 1) / 2 ≤ W) by (apply Nat.Div0.div_le_upper_bound; lia).
  set (bw := (W + 1) / 2) in *.
  rewrite drawCell_flip_x, drawCell_copy by lia.
  rewrite !inSpan_forward by lia.
  rewrite (bool_decide_eq_true_2 (0 ≤ Z.of_nat y < 0 + Z.of_nat H)%Z) by lia.
  rewrite (bool_decide_eq_true_2 (0 ≤ Z.of_nat x < 0 + Z.of_nat W)%Z) by lia.
  simpl.
  replace (0 + (Z.of_nat W - 1 - Z.of_nat x))%Z with (Z.of_nat (W - 1 - x))
    by lia.
  replace (0 + (Z.of_nat x - 0))%Z with (Z.of_nat x) by lia.
  replace (0 + (Z.of_nat y - 0))%Z with (Z.of_nat y) by lia.
  fold (pixelAt source x y). fold (pixelAt source (W - 1 - x) y).
  repeat case_bool_decide; try done; lia.
Qed.

(** [ceilHalf] is [Math.ceil(n / 2)]: the least integer whose double is at
    least [n]. *)
Lemma ceilHalf_ceiling n : (n ≤ 2 * ceilHalf n ≤ n + 1)%Z.
Proof.
  unfold ceilHalf. pose proof (Z.div_mod (n + 1) 2 ltac:(lia)).
  pose proof (Z.mod_pos_bound (n + 1) 2 ltac:(lia)). lia.
Qed.

(** ** Claims on the mirror compositor *)

(** C6. Mirroring to the left onto a destination of [width] by [height]
    pixels: for every column [x] of the base half and every row [y], the
    output pixel at [(width - 1 - x, y)] is the output pixel at [(x, y)]. *)
Theorem mirror_left_reflection over ctx source width height x y :
  s_width ctx = width → s_height ctx = height →
  length (s_pixels ctx) = width * height →
  (Z.of_nat x < ceilHalf (Z.of_nat width))%Z → y < height →
  let out := drawSymmetry over ctx source (Z.of_nat width)
               (Z.of_nat height) Left in
  is_Some (pixelAt out x y)
  ∧ pixelAt out (width - 1 - x) y = pixelAt out x y.
Proof.
  intros <- <- Hlen Hx Hy out. subst out.
  pose proof (ceilHalf_ceiling (Z.of_nat (s_width ctx))) as Hceil.
  rewrite ceilHalf_nat in Hx, Hceil.
  rewrite !drawSymmetry_left_pixelAt by (done || lia).
  split; [done|]. f_equal. unfold leftPixel.
  set (W := s_width ctx) in *. set (bw := (W + 1) / 2) in *.
  rewrite (bool_decide_eq_true_2 (W - bw ≤ W - 1 - x)) by lia.
  rewrite (bool_decide_eq_true_2 (x < bw)) by lia.
  replace (W - 1 - (W - 1 - x)) with x by lia.
  destruct (decide (W - bw ≤ x)) as [Hmid|Hside].
  - replace (W - 1 - x) with x by lia.
    rewrite (bool_decide_eq_true_2 (x < bw)) by lia.
    by rewrite (bool_decide_eq_true_2 (W - bw ≤ x)) by lia.
  - rewrite (bool_decide_eq_false_2 (W - 1 - x < bw)) by lia.
    by rewrite (bool_decide_eq_false_2 (W - bw ≤ x)) by lia.
Qed.

Lemma mirror_left_reflection_witness :
  let out := drawSymmetry overOpaque (createCanvas 3 1)
               (mkSurface 3 1 [pixelA; pixelB; pixelC]) 3 1 Left in
  pixelAt out 0 0 = Some pixelA
  ∧ pixelAt out (3 - 1 - 0) 0 = pixelAt out 0 0.
Proof.
  destruct (mirror_left_reflection overOpaque (createCanvas 3 1)
              (mkSurface 3 1 [pixelA; pixelB; pixelC]) 3 1 0 0
              eq_refl eq_refl eq_refl ltac:(vm_compute; reflexivity)
              ltac:(lia)) as [_ Heq].
  split; [reflexivity | exact Heq].
Defined.

(** C5, as the code has it.  Mirroring the row [A, B, C] to the left takes
    the base [A, B], draws it on columns 0-1 and draws its flipped copy, two
    columns wide and not scaled, on columns 1-2: column 1 receives [B] from
    both copies, column 2 is the reflection of column 0 and receives [A].
    All three columns are drawn and [C], outside the base, is never read. *)
Theorem mirror_left_odd_row over A B C p0 p1 p2 :
  drawSymmetry over (mkSurface 3 1 [p0; p1; p2]) (mkSurface 3 1 [A; B; C])
               3 1 Left
  = mkSurface 3 1 [over A transparent;
                   over B (over B transparent);
                   over A transparent].
Proof. reflexivity. Qed.

(** C5, as stated, fails: with opaque pixels the row [A, B, C] is mirrored
    to [A, B, A]; column 2 holds [A], not [B]. *)
Lemma mirror_left_odd_row_not_from_center :
  s_pixels (drawSymmetry overOpaque (createCanvas 3 1)
              (mkSurface 3 1 [pixelA; pixelB; pixelC]) 3 1 Left)
  = [pixelA; pixelB; pixelA]
  ∧ pixelA ≠ pixelB.
Proof. split; [reflexivity | discriminate]. Qed.

(** ** The pipelines *)

Lemma wfSurface_createCanvas width height :
  wfSurface width height (createCanvas width height).
Proof. split_and!; [done..|apply length_replicate]. Qed.

Lemma wfSurface_mapPixels f width height s :
  wfSurface width height s → wfSurface width height (mapPixels f s).
Proof.
  intros (Hw & Hh & Hlen). split_and!; [done..|].
  unfold mapPixels. simpl. by rewrite length_imap.
Qed.

Lemma wfSurface_drawSymmetry over width height ctx source w h direction :
  wfSurface width height ctx →
  wfSurface width height (drawSymmetry over ctx source w h direction).
Proof.
  intros Hwf. unfold drawSymmetry, drawImage, clearRect.
  destruct direction; repeat apply wfSurface_mapPixels; done.
Qed.

Lemma cell_coordinates width height i :
  i < width * height → i mod width < width ∧ i / width < height.
Proof.
  intros Hi. assert (width ≠ 0) by lia. split.
  - by apply Nat.mod_upper_bound.
  - apply Nat.Div0.div_lt_upper_bound; lia.
Qed.

Lemma mapPixels_eq f width height s pixels :
  wfSurface width height s →
  length pixels = width * height →
  (∀ i old, i < width * height → s_pixels s !! i = Some old →
     Some (f (Z.of_nat (i mod width)) (Z.of_nat (i / width)) old)
     = pixels !! i) →
  mapPixels f s = mkSurface width height pixels.
Proof.
  intros (Hw & Hh & Hlen) Hpx Hcells. unfold mapPixels.
  rewrite Hw, Hh. f_equal. apply list_eq. intros i.
  rewrite list_lookup_imap.
  destruct (decide (i < width * height)) as [Hi|Hi].
  - destruct (lookup_lt_is_Some_2 (s_pixels s) i ltac:(lia)) as [old Hold].
    rewrite Hold. simpl. by apply Hcells.
  - rewrite (lookup_ge_None_2 (s_pixels s)) by lia.
    by rewrite lookup_ge_None_2 by lia.
Qed.

(** [clearRect(0, 0, width, height)] leaves nothing of what the surface
    held. *)
Lemma clearRect_full width height ctx :
  wfSurface width height ctx →
  clearRect ctx 0 0 (Z.of_nat width) (Z.of_nat height)
  = createCanvas width height.
Proof.
  intros Hwf. unfold clearRect, createCanvas.
  apply mapPixels_eq; [done | apply length_replicate |].
  intros i old Hi _. destruct (cell_coordinates width height i Hi).
  rewrite lookup_replicate_2 by done.
  rewrite !inSpan_forward, !bool_decide_eq_true_2 by lia. done.
Qed.

Lemma drawSymmetry_fresh over width height ctx source direction :
  wfSurface width height ctx →
  drawSymmetry over ctx source (Z.of_nat width) (Z.of_nat height) direction
  = drawSymmetry over (createCanvas width height) source
      (Z.of_nat width) (Z.of_nat height) direction.
Proof.
  intros Hwf. unfold drawSymmetry.
  rewrite (clearRect_full width height ctx Hwf).
  by rewrite (clearRect_full width height _
                (wfSurface_createCanvas width height)).
Qed.

Lemma length_pixelsOfBytes n : ∀ data,
  length data = n * 4 → length (pixelsOfBytes data) = n.
Proof.
  induction n as [|n IH]; intros data Hlen.
  - by destruct data.
  - destruct data as [|r [|g [|b [|a rest]]]]; simpl in Hlen; try lia.
    simpl. f_equal. apply IH. lia.
Qed.

(** [putImageData] of a whole frame replaces the scratch surface. *)
Lemma putImageData_full width height ctx data :
  wfSurface width height ctx →
  length data = width * height * 4 →
  putImageData ctx width height data = frameSurface width height data.
Proof.
  intros Hwf Hlen. unfold putImageData, frameSurface.
  pose proof (length_pixelsOfBytes (width * height) data Hlen) as Hpx.
  apply mapPixels_eq; [done..|].
  intros i old Hi _. destruct (cell_coordinates width height i Hi).
  rewrite (proj2 (Z.ltb_lt _ _)), (proj2 (Z.ltb_lt _ _)) by lia. simpl.
  replace (Z.to_nat (Z.of_nat (i / width) * Z.of_nat width
                     + Z.of_nat (i mod width))) with i.
  - destruct (lookup_lt_is_Some_2 (pixelsOfBytes data) i ltac:(lia))
      as [p ->]. done.
  - pose proof (Nat.div_mod_eq i width). lia.
Qed.

Lemma encodeFrame_run over width height direction st frame :
  wfGifState width height st →
  length frame.1 = width * height * 4 →
  ∃ st', encodeFrame over width height direction st frame = Ok st'
    ∧ wfGifState width height st'
    ∧ encoder st' = encoder st ++ frameCalls over width height direction frame.
Proof.
  intros [Hdata Hfc Hout] Hlen. unfold encodeFrame.
  rewrite set_bytes_whole by lia. simpl.
  rewrite (putImageData_full width height _ _ Hfc Hlen).
  rewrite (drawSymmetry_fresh over width height _ _ _ Hout).
  eexists. split; [reflexivity|]. split; [|done].
  split; simpl; [done| |].
  - split_and!; [done..|]. by apply length_pixelsOfBytes.
  - apply wfSurface_drawSymmetry, wfSurface_createCanvas.
Qed.

Lemma encodeFrames_run over width height direction full : ∀ st,
  wfGifState width height st →
  Forall (λ f, length f.1 = width * height * 4) full →
  ∃ st', foldl_result (encodeFrame over width height direction) st full
         = Ok st'
    ∧ encoder st'
      = encoder st
        ++ flat_map (frameCalls over width height direction) full.
Proof.
  induction full as [|f full IH]; intros st Hwf Hall; simpl.
  - exists st. by rewrite app_nil_r.
  - apply Forall_cons in Hall as [Hf Hall].
    destruct (encodeFrame_run over width height direction st f Hwf Hf)
      as (st1 & -> & Hwf1 & Henc1).
    rewrite bind_result.
    destruct (IH st1 Hwf1 Hall) as (st2 & -> & Henc2).
    exists st2. split; [done|]. by rewrite Henc2, Henc1, <- app_assoc.
Qed.

(** The delays of the reconstructed frames are those of the patches. *)
Lemma foldl_contentsStep_delays width height frames : ∀ c c',
  foldl_result (contentsStep width height) c frames = Ok c' →
  (c_emitted c').*2 = (c_emitted c).*2 ++ map Frame.delay frames.
Proof.
  induction frames as [|f frames IH]; intros c c'; simpl.
  - intros [= <-]. by rewrite app_nil_r.
  - rewrite bind_result.
    destruct (contentsStep width height c f) as [c1|] eqn:Hstep; [|done].
    intros ->%IH.
    apply contentsStep_inv in Hstep as (d & t & _ & _ & ->). simpl.
    by rewrite fmap_app, <- app_assoc.
Qed.

(** C7. Every reconstructed frame is handed to the writer once, in the
    order of reconstruction: its delay, ten times the delay of its patch and
    never negative, then the mirrored image of that very frame.  Nothing is
    dropped, repeated or reordered. *)
Theorem frames_encoded_in_order over frames width height direction full :
  reconstruct frames width height = Ok full →
  generateGif over frames width height direction
  = Ok ([EncNew width height; EncStart; EncSetRepeat 0; EncSetQuality 10]
        ++ flat_map (frameCalls over width height direction) full
        ++ [EncFinish])
  ∧ full.*2 = map Frame.delay frames
  ∧ ∀ delay, (0 ≤ delayMs delay)%Z
             ∧ ((0 ≤ delay)%Z → delayMs delay = (delay * 10)%Z)
             ∧ ((delay ≤ 0)%Z → delayMs delay = 0%Z).
Proof.
  intros Hfull. split_and!.
  - unfold generateGif. rewrite Hfull. simpl.
    pose proof (reconstruct_frame_sizes frames width height full Hfull)
      as Hall.
    edestruct (encodeFrames_run over width height direction full) as
      (st & -> & Henc); [|exact Hall|].
    + split; simpl; [apply length_replicate|
                     apply wfSurface_createCanvas..].
    + simpl. rewrite Henc. reflexivity.
  - rewrite reconstruct_contents in Hfull.
    destruct (contentsRun frames width height) as [c|] eqn:Hrun; [|done].
    injection Hfull as <-.
    by apply foldl_contentsStep_delays in Hrun.
  - intros delay. unfold delayMs. lia.
Qed.

Lemma frames_encoded_in_order_witness :
  generateGif overOpaque [redFrame; bluePatch] 2 2 Left
  = Ok [EncNew 2 2; EncStart; EncSetRepeat 0; EncSetQuality 10;
        EncSetDelay 50;
        EncAddFrame (mirrorFrame overOpaque 2 2 Left
                       (redBytes ++ redBytes ++ redBytes ++ redBytes));
        EncSetDelay 30;
        EncAddFrame (mirrorFrame overOpaque 2 2 Left
                       (redBytes ++ redBytes ++ redBytes ++ blueBytes));
        EncFinish].
Proof.
  exact (proj1 (frames_encoded_in_order overOpaque [redFrame; bluePatch]
                  2 2 Left _ reconstruct_red_blue)).
Defined.

(** C9. An image whose width or height is zero or absent makes the static
    pipeline fail with the invalid-size error before any canvas is created,
    drawn on or encoded. *)
Theorem static_rejects_empty_image over image direction :
  coalesce (naturalWidth image) (imageWidth image) = 0
  ∨ coalesce (naturalHeight image) (imageHeight image) = 0 →
  generateStatic over image direction = ([], Throw InvalidImageSize).
Proof.
  intros Hzero. unfold generateStatic, getImageSize.
  destruct Hzero as [-> | ->]; simpl; [done|].
  by rewrite orb_true_r.
Qed.

Lemma static_rejects_empty_image_witness :
  generateStatic overOpaque
    (mkImage None (Some 4) None (Some 4) (createCanvas 0 4)) Up
  = ([], Throw InvalidImageSize).
Proof.
  apply (static_rejects_empty_image overOpaque
           (mkImage None (Some 4) None (Some 4) (createCanvas 0 4)) Up).
  left. reflexivity.
Defined.

(** Whenever the static pipeline does produce an image, it has the size of
    the decoded one, and neither side is zero. *)
Lemma static_output_size over image direction calls out :
  generateStatic over image direction = (calls, Ok out) →
  s_width out = coalesce (naturalWidth image) (imageWidth image)
  ∧ s_height out = coalesce (naturalHeight image) (imageHeight image)
  ∧ 0 < s_width out ∧ 0 < s_height out.
Proof.
  unfold generateStatic, getImageSize.
  destruct (coalesce (naturalWidth image) (imageWidth image)) as [|w];
    [done|].
  destruct (coalesce (naturalHeight image) (imageHeight image)) as [|h];
    [done|].
  simpl. intros [= _ <-].
  pose proof (wfSurface_drawSymmetry over (S w) (S h)
                (createCanvas (S w) (S h)) (bitmap image)
                (Z.of_nat (S w)) (Z.of_nat (S h)) direction
                (wfSurface_createCanvas _ _)) as (Hw & Hh & _).
  rewrite Hw, Hh. lia.
Qed.

(** * Further properties *)

(** ** The mirror compositor, all directions *)

Lemma drawCell_flip_y over source sx sy w h dx dy px py old :
  (0 < w)%Z → (0 < h)%Z →
  drawCell over source sx sy w h dx dy w (- h) px py old
  = if bool_decide (dx ≤ px < dx + w ∧ dy - h ≤ py < dy)%Z
    then paint over (getPixel source (sx + (px - dx)) (sy + (dy - 1 - py)))
               old
    else old.
Proof.
  intros Hw Hh. unfold drawCell.
  rewrite (inSpan_backward dy), (inSpan_forward dx) by lia.
  rewrite (Z.min_r dy), (Z.min_l dx), sample_flip, sample_copy by lia.
  replace ((0 <? w) && (0 <? h))%Z with true
    by (symmetry; apply andb_true_intro; split; lia).
  replace (sy + (h - 1 - (py - (dy + - h))))%Z with (sy + (dy - 1 - py))%Z
    by lia.
  simpl. repeat case_bool_decide; simpl; try done; lia.
Qed.

Lemma drawCell_flip_xy over source sx sy w h dx dy px py old :
  (0 < w)%Z → (0 < h)%Z →
  drawCell over source sx sy w h dx dy (- w) (- h) px py old
  = if bool_decide (dx - w ≤ px < dx ∧ dy - h ≤ py < dy)%Z
    then paint over (getPixel source (sx + (dx - 1 - px))
                       (sy + (dy - 1 - py))) old
    else old.
Proof.
  intros Hw Hh. unfold drawCell.
  rewrite !inSpan_backward by lia.
  rewrite !Z.min_r, !sample_flip by lia.
  replace ((0 <? w) && (0 <? h))%Z with true
    by (symmetry; apply andb_true_intro; split; lia).
  replace (sx + (w - 1 - (px - (dx + - w))))%Z with (sx + (dx - 1 - px))%Z
    by lia.
  replace (sy + (h - 1 - (py - (dy + - h))))%Z with (sy + (dy - 1 - py))%Z
    by lia.
  simpl. repeat case_bool_decide; simpl; try done; lia.
Qed.

Lemma getPixel_nat source a b (x y : Z) :
  x = Z.of_nat a → y = Z.of_nat b → getPixel source x y = pixelAt source a b.
Proof. by intros -> ->. Qed.


(** Every cell of the output of [drawSymmetry] is the composition, in the
    order of the drawing calls, of the source pixels at [paints]; nothing
    of what the destination held before survives. *)
Lemma drawSymmetry_pixelAt over ctx source direction x y :
  x < s_width ctx → y < s_height ctx →
  length (s_pixels ctx) = s_width ctx * s_height ctx →
  pixelAt (drawSymmetry over ctx source (Z.of_nat (s_width ctx))
             (Z.of_nat (s_height ctx)) direction) x y
  = Some (painted over source
            (paints direction (s_width ctx) (s_height ctx) x y)).
Proof.
  intros Hx Hy Hlen. unfold drawSymmetry, drawImage, clearRect, paints.
  destruct (pixelAt_is_Some ctx x y Hx Hy Hlen) as [p0 Hp0].
  rewrite !ceilHalf_nat.
  set (W := s_width ctx) in *. set (H := s_height ctx) in *.
  assert (Hbw : 0 < (W + 1) / 2) by (apply Nat.div_str_pos; lia).
  assert (Hbw2 : (W + 1) / 2 ≤ W)
    by (apply Nat.Div0.div_le_upper_bound; lia).
  assert (Hbh : 0 < (H + 1) / 2) by (apply Nat.div_str_pos; lia).
  assert (Hbh2 : (H + 1) / 2 ≤ H)
    by (apply Nat.Div0.div_le_upper_bound; lia).
  set (bw := (W + 1) / 2) in *. set (bh := (H + 1) / 2) in *.
  clearbody bw bh.
  destruct direction; rewrite !pixelAt_mapPixels, Hp0 by done;
    cbn [fmap option_fmap option_map]; f_equal;
    rewrite ?drawCell_flip_xy, ?drawCell_flip_x, ?drawCell_flip_y,
      ?drawCell_copy by lia;
    rewrite !inSpan_forward by lia;
    rewrite (bool_decide_eq_true_2 (0 ≤ Z.of_nat y < 0 + Z.of_nat H)%Z)
      by lia;
    rewrite (bool_decide_eq_true_2 (0 ≤ Z.of_nat x < 0 + Z.of_nat W)%Z)
      by lia;
    unfold painted; cbn [andb];
    repeat case_bool_decide; try (exfalso; lia); simpl;
    unfold pixelAt; repeat (f_equal; try lia).
Qed.


Lemma half_bounds n :
  0 < n → 0 < (n + 1) / 2 ∧ n ≤ 2 * ((n + 1) / 2) ∧ 2 * ((n + 1) / 2) ≤ n + 1.
Proof.
  intros Hn. pose proof (Nat.div_mod_eq (n + 1) 2).
  pose proof (Nat.mod_upper_bound (n + 1) 2 ltac:(lia)).
  split; [apply Nat.div_str_pos; lia | lia].
Qed.

Lemma paints_flip_columns direction width height x y :
  flipsColumns direction = true → x < width →
  paints direction width height (width - 1 - x) y
  = paints direction width height x y.
Proof.
  intros Hdir Hx. destruct (half_bounds width ltac:(lia)) as (Hbw & Hlo & Hhi).
  unfold paints. set (bw := (width + 1) / 2) in *. clearbody bw.
  destruct direction; try done;
    repeat case_bool_decide; try (exfalso; lia); simpl;
    repeat (f_equal; try lia).
Qed.

Lemma paints_flip_rows direction width height x y :
  flipsRows direction = true → y < height →
  paints direction width height x (height - 1 - y)
  = paints direction width height x y.
Proof.
  intros Hdir Hy.
  destruct (half_bounds height ltac:(lia)) as (Hbh & Hlo & Hhi).
  unfold paints. set (bh := (height + 1) / 2) in *. clearbody bh.
  destruct direction; try done;
    repeat case_bool_decide; try (exfalso; lia); simpl;
    repeat (f_equal; try lia).
Qed.

(** Mirroring to the left, to the right or both ways gives an image whose
    every row reads the same in both directions, over its whole width. *)
Theorem mirror_symmetric_across_columns
    over ctx source width height direction x y :
  wfSurface width height ctx →
  flipsColumns direction = true →
  x < width → y < height →
  let out := drawSymmetry over ctx source (Z.of_nat width)
               (Z.of_nat height) direction in
  is_Some (pixelAt out x y)
  ∧ pixelAt out (width - 1 - x) y = pixelAt out x y.
Proof.
  intros (<- & <- & Hlen) Hdir Hx Hy out. subst out.
  rewrite !drawSymmetry_pixelAt by (done || lia).
  split; [done|]. by rewrite paints_flip_columns.
Qed.

Lemma mirror_symmetric_across_columns_witness :
  let out := drawSymmetry overOpaque (createCanvas 3 3) nineCells 3 3 Right in
  pixelAt out 0 1 = Some (rgba xff x00 xff xff)
  ∧ pixelAt out (3 - 1 - 0) 1 = pixelAt out 0 1.
Proof.
  destruct (mirror_symmetric_across_columns overOpaque (createCanvas 3 3)
              nineCells 3 3 Right 0 1 (wfSurface_createCanvas 3 3)
              eq_refl ltac:(lia) ltac:(lia)) as [_ Heq].
  split; [reflexivity | exact Heq].
Defined.

(** Mirroring upwards, downwards or both ways gives an image whose every
    column reads the same in both directions, over its whole height. *)
Theorem mirror_symmetric_across_rows
    over ctx source width height direction x y :
  wfSurface width height ctx →
  flipsRows direction = true →
  x < width → y < height →
  let out := drawSymmetry over ctx source (Z.of_nat width)
               (Z.of_nat height) direction in
  is_Some (pixelAt out x y)
  ∧ pixelAt out x (height - 1 - y) = pixelAt out x y.
Proof.
  intros (<- & <- & Hlen) Hdir Hx Hy out. subst out.
  rewrite !drawSymmetry_pixelAt by (done || lia).
  split; [done|]. by rewrite paints_flip_rows.
Qed.

Lemma mirror_symmetric_across_rows_witness :
  let out := drawSymmetry overOpaque (createCanvas 3 3) nineCells 3 3 Down in
  pixelAt out 1 0 = Some (rgba x00 x00 x00 xff)
  ∧ pixelAt out 1 (3 - 1 - 0) = pixelAt out 1 0.
Proof.
  destruct (mirror_symmetric_across_rows overOpaque (createCanvas 3 3)
              nineCells 3 3 Down 1 0 (wfSurface_createCanvas 3 3)
              eq_refl ltac:(lia) ltac:(lia)) as [_ Heq].
  split; [reflexivity | exact Heq].
Defined.


(** Two bitmaps of the same size with the same pixels are equal. *)
Lemma surface_ext width height s1 s2 :
  wfSurface width height s1 → wfSurface width height s2 →
  (∀ x y, x < width → y < height → pixelAt s1 x y = pixelAt s2 x y) →
  s1 = s2.
Proof.
  destruct s1 as [w1 h1 px1], s2 as [w2 h2 px2].
  intros (Hw1 & Hh1 & Hl1) (Hw2 & Hh2 & Hl2) Hpx. simpl in *.
  subst w1 h1 w2 h2. f_equal. apply list_eq. intros i.
  destruct (decide (i < width * height)) as [Hi|Hi].
  - destruct (cell_coordinates width height i Hi) as [Hx Hy].
    specialize (Hpx (i mod width) (i / width) Hx Hy).
    rewrite !pixelAt_lookup in Hpx by done. simpl in Hpx.
    replace (i / width * width + i mod width) with i in Hpx; [done|].
    pose proof (Nat.div_mod_eq i width). lia.
  - by rewrite !lookup_ge_None_2 by lia.
Qed.

(** What [drawSymmetry] draws does not depend on what the destination held
    before. *)
Theorem mirror_ignores_destination
    over width height ctx1 ctx2 source direction :
  wfSurface width height ctx1 → wfSurface width height ctx2 →
  drawSymmetry over ctx1 source (Z.of_nat width) (Z.of_nat height) direction
  = drawSymmetry over ctx2 source (Z.of_nat width) (Z.of_nat height)
      direction.
Proof.
  intros Hwf1 Hwf2.
  rewrite (drawSymmetry_fresh over width height ctx1) by done.
  by rewrite (drawSymmetry_fresh over width height ctx2) by done.
Qed.

Lemma mirror_ignores_destination_witness :
  drawSymmetry overOpaque nineCells nineCells 3 3 Both
  = drawSymmetry overOpaque (createCanvas 3 3) nineCells 3 3 Both.
Proof.
  apply (mirror_ignores_destination overOpaque 3 3 nineCells
           (createCanvas 3 3) nineCells Both).
  - split_and!; reflexivity.
  - apply wfSurface_createCanvas.
Defined.

Lemma paints_in_base direction width height x y c :
  x < width → y < height →
  c ∈ paints direction width height x y →
  inBase direction width height c.1 c.2 = true.
Proof.
  intros Hx Hy.
  destruct (half_bounds width ltac:(lia)) as (Hbw & Hwlo & Hwhi).
  destruct (half_bounds height ltac:(lia)) as (Hbh & Hhlo & Hhhi).
  unfold paints, inBase.
  set (bw := (width + 1) / 2) in *. set (bh := (height + 1) / 2) in *.
  clearbody bw bh.
  destruct c as [cx cy]. cbn [fst snd].
  rewrite ?andb_true_iff, ?bool_decide_eq_true.
  destruct direction; intros Hc; repeat case_bool_decide; simpl in Hc;
    rewrite ?elem_of_cons, ?elem_of_nil in Hc;
    repeat (destruct Hc as [Hc | Hc]); try done;
    injection Hc as -> ->; lia.
Qed.

(** The output is drawn from the base region alone: two sources that agree
    on it are mirrored to the same image. *)
Theorem mirror_reads_base_only
    over width height ctx source1 source2 direction :
  wfSurface width height ctx →
  (∀ x y, inBase direction width height x y = true →
          pixelAt source1 x y = pixelAt source2 x y) →
  drawSymmetry over ctx source1 (Z.of_nat width) (Z.of_nat height) direction
  = drawSymmetry over ctx source2 (Z.of_nat width) (Z.of_nat height)
      direction.
Proof.
  intros Hwf Hbase.
  apply (surface_ext width height);
    [by apply wfSurface_drawSymmetry..|].
  intros x y Hx Hy. destruct Hwf as (<- & <- & Hlen).
  rewrite !drawSymmetry_pixelAt by done. f_equal. unfold painted.
  pose proof (λ c, paints_in_base direction (s_width ctx) (s_height ctx)
                     x y c Hx Hy) as Hin.
  generalize transparent.
  induction (paints direction (s_width ctx) (s_height ctx) x y)
    as [|c cells IH]; intros acc; simpl; [done|].
  rewrite (Hbase c.1 c.2) by (apply Hin; left).
  apply IH. intros c' Hc'. apply Hin. by right.
Qed.

Lemma mirror_reads_base_only_witness :
  drawSymmetry overOpaque (createCanvas 3 1)
    (mkSurface 3 1 [pixelA; pixelB; pixelC]) 3 1 Left
  = drawSymmetry overOpaque (createCanvas 3 1)
      (mkSurface 3 1 [pixelA; pixelB; pixelA]) 3 1 Left.
Proof.
  apply (mirror_reads_base_only overOpaque 3 1 (createCanvas 3 1)
           (mkSurface 3 1 [pixelA; pixelB; pixelC])
           (mkSurface 3 1 [pixelA; pixelB; pixelA]) Left).
  - apply wfSurface_createCanvas.
  - intros x y Hbase. unfold inBase in Hbase.
    apply bool_decide_eq_true in Hbase. change ((3 + 1) / 2) with 2 in Hbase.
    destruct y as [|y].
    + destruct x as [|[|x]]; [reflexivity | reflexivity | lia].
    + unfold pixelAt, getPixel. cbn [s_width s_height].
      rewrite (proj2 (Z.ltb_ge (Z.of_nat (S y)) (Z.of_nat 1))) by lia.
      by rewrite !andb_false_r.
Defined.


Lemma paints_mirrorCoord direction width height x y :
  x < width → y < height →
  paints direction width height x y ≠ []
  ∧ Forall (λ c, c = mirrorCoord direction width height x y)
           (paints direction width height x y).
Proof.
  intros Hx Hy.
  destruct (half_bounds width ltac:(lia)) as (Hbw & Hwlo & Hwhi).
  destruct (half_bounds height ltac:(lia)) as (Hbh & Hhlo & Hhhi).
  unfold paints, mirrorCoord.
  set (bw := (width + 1) / 2) in *. set (bh := (height + 1) / 2) in *.
  clearbody bw bh.
  destruct direction; repeat case_bool_decide; try (exfalso; lia); simpl;
    (split; [done|]); repeat constructor; f_equal; lia.
Qed.

Lemma pixelAt_opaque source x y p :
  opaque source → pixelAt source x y = Some p → alpha p = xff.
Proof.
  unfold opaque, pixelAt, getPixel. rewrite Forall_forall. intros Hall Hp.
  destruct (_ && _)%bool; [|done].
  by eapply Hall, list_elem_of_lookup_2.
Qed.

Lemma painted_same over source cells c p :
  (∀ q old, alpha q = xff → over q old = q) →
  alpha p = xff →
  pixelAt source c.1 c.2 = Some p →
  cells ≠ [] → Forall (λ c', c' = c) cells →
  painted over source cells = p.
Proof.
  intros Hover Hopaque Hp Hne Hall. unfold painted.
  assert (Hgen : ∀ acc,
    foldl (λ old c0, paint over (pixelAt source c0.1 c0.2) old) acc cells
    = if decide (cells = []) then acc else p).
  { clear Hne. induction Hall as [|c' cells -> _ IH]; intros acc.
    - done.
    - simpl. rewrite Hp. simpl. rewrite IH, Hover by done.
      by case_decide. }
  rewrite Hgen. by rewrite decide_False.
Qed.

Lemma painted_paints over width height source direction x y :
  (∀ p old, alpha p = xff → over p old = p) →
  opaque source →
  wfSurface width height source → x < width → y < height →
  Some (painted over source (paints direction width height x y))
  = pixelAt source (mirrorCoord direction width height x y).1
                   (mirrorCoord direction width height x y).2.
Proof.
  intros Hover Hopaque (Hsw & Hsh & Hslen) Hx Hy.
  destruct (paints_mirrorCoord direction width height x y Hx Hy)
    as [Hne Hall].
  set (c := mirrorCoord direction width height x y) in *.
  assert (Hc : c.1 < s_width source ∧ c.2 < s_height source).
  { rewrite Hsw, Hsh. unfold c, mirrorCoord.
    destruct direction; simpl; lia. }
  destruct (pixelAt_is_Some source c.1 c.2) as [p Hp];
    [apply Hc.. | by rewrite Hslen, Hsw, Hsh |].
  rewrite Hp. f_equal. apply painted_same with c; try done.
  by apply (pixelAt_opaque source c.1 c.2).
Qed.

(** For a source all of whose pixels are opaque, and compositing under
    which an opaque pixel replaces whatever it is drawn over, as source-over
    has it, every output cell is the source pixel at the mirrored
    coordinate: the base is kept as it is and reflected onto the rest. *)
Theorem mirror_closed_form over width height ctx source direction x y :
  (∀ p old, alpha p = xff → over p old = p) →
  opaque source →
  wfSurface width height ctx → wfSurface width height source →
  x < width → y < height →
  pixelAt (drawSymmetry over ctx source (Z.of_nat width) (Z.of_nat height)
             direction) x y
  = pixelAt source (mirrorCoord direction width height x y).1
                   (mirrorCoord direction width height x y).2.
Proof.
  intros Hover Hopaque Hctx Hsrc Hx Hy.
  destruct Hctx as (<- & <- & Hlen).
  rewrite drawSymmetry_pixelAt by done. by apply painted_paints.
Qed.

Lemma mirror_closed_form_witness :
  pixelAt (drawSymmetry overOpaque (createCanvas 3 1)
             (mkSurface 3 1 [pixelA; pixelB; pixelC]) 3 1 Left) 2 0
  = Some pixelA.
Proof.
  apply (mirror_closed_form overOpaque 3 1 (createCanvas 3 1)
           (mkSurface 3 1 [pixelA; pixelB; pixelC]) Left 2 0
           (λ _ _ _, eq_refl)
           ltac:(repeat constructor)
           (wfSurface_createCanvas 3 1)
           (conj eq_refl (conj eq_refl eq_refl))); lia.
Defined.

(** Under the same compositing, an opaque source that is already symmetric
    in the direction asked for is mirrored to itself. *)
Theorem mirror_fixes_symmetric_source
    over width height ctx source direction :
  (∀ p old, alpha p = xff → over p old = p) →
  opaque source →
  wfSurface width height ctx → wfSurface width height source →
  (∀ x y, x < width → y < height →
     pixelAt source (mirrorCoord direction width height x y).1
                    (mirrorCoord direction width height x y).2
     = pixelAt source x y) →
  drawSymmetry over ctx source (Z.of_nat width) (Z.of_nat height) direction
  = source.
Proof.
  intros Hover Hopaque Hctx Hsrc Hsym.
  apply (surface_ext width height);
    [by apply wfSurface_drawSymmetry | done |].
  intros x y Hx Hy. rewrite <- (Hsym x y Hx Hy).
  destruct Hctx as (<- & <- & Hlen).
  rewrite drawSymmetry_pixelAt by done. by apply painted_paints.
Qed.

Lemma mirror_fixes_symmetric_source_witness :
  drawSymmetry overOpaque (createCanvas 3 1)
    (mkSurface 3 1 [pixelA; pixelB; pixelA]) 3 1 Left
  = mkSurface 3 1 [pixelA; pixelB; pixelA].
Proof.
  apply (mirror_fixes_symmetric_source overOpaque 3 1 (createCanvas 3 1)
           (mkSurface 3 1 [pixelA; pixelB; pixelA]) Left
           (λ _ _ _, eq_refl)
           ltac:(repeat constructor)
           (wfSurface_createCanvas 3 1)
           (conj eq_refl (conj eq_refl eq_refl))).
  intros x y Hx Hy. assert (y = 0) as -> by lia.
  destruct x as [|[|[|x]]]; [reflexivity.. | lia].
Defined.


(** ** The reconstructor, frame after frame *)

Lemma contentsRun_snoc_inv frames frame width height c' :
  contentsRun (frames ++ [frame]) width height = Ok c' →
  ∃ c, contentsRun frames width height = Ok c
       ∧ contentsStep width height c frame = Ok c'
       ∧ wfContents width height c ∧ wfContents width height c'.
Proof.
  unfold contentsRun. rewrite foldl_result_app, bind_result.
  pose proof (contentsRun_wf frames width height) as Hwf.
  unfold contentsRun in Hwf.
  destruct (foldl_result _ _ frames) as [c|]; [|done].
  simpl. rewrite bind_result.
  destruct (contentsStep width height c frame) as [c1|] eqn:Hstep; [|done].
  intros [= <-]. exists c. destruct Hwf as (_ & Hwf & _).
  pose proof (contentsStep_wf width height c frame Hwf) as Hwf1.
  rewrite Hstep in Hwf1. by destruct Hwf1 as (_ & ? & _).
Qed.

Lemma frameWellFormed_fits width height frame :
  frameWellFormed width height frame → patchFits width height frame = true.
Proof.
  intros (Hw & Hh & Hlen). unfold patchFits.
  destruct (decide (length (Frame.patch frame) = width * height * 4))
    as [Hfull|Hpart].
  { by rewrite bool_decide_eq_true_2. }
  rewrite bool_decide_eq_false_2 by done. simpl.
  apply forallb_forall. intros y Hy%in_seq.
  apply bool_decide_eq_true.
  rewrite length_patchRow_full by lia.
  apply (rowOffset_end _ width height y); [done..|lia].
Qed.

(** Input that respects the data model is always reconstructed: one frame
    per patch, with the delays of the patches. *)
Theorem reconstruct_accepts_well_formed frames width height :
  Forall (frameWellFormed width height) frames →
  ∃ full, reconstruct frames width height = Ok full
          ∧ length full = length frames
          ∧ full.*2 = map Frame.delay frames.
Proof.
  intros Hall. rewrite reconstruct_contents.
  pose proof (contentsRun_wf frames width height) as Hwf.
  destruct (contentsRun frames width height) as [c|e] eqn:Hrun.
  - exists (c_emitted c). destruct Hwf as (_ & _ & Hlen).
    split_and!; [done..|].
    by apply foldl_contentsStep_delays in Hrun.
  - destruct Hwf as [_ Hfit]. exfalso.
    assert (forallb (patchFits width height) frames = true); [|congruence].
    apply forallb_forall. intros f Hf%list_elem_of_In.
    apply frameWellFormed_fits. by eapply Forall_forall in Hall.
Qed.

Lemma reconstruct_accepts_well_formed_witness :
  ∃ full, reconstruct [redFrame; bluePatch] 2 2 = Ok full
          ∧ length full = 2 ∧ full.*2 = [5%Z; 3%Z].
Proof.
  apply (reconstruct_accepts_well_formed [redFrame; bluePatch] 2 2).
  repeat constructor; simpl; lia.
Defined.

(** Frames depend on the patches before them only: reconstructing a longer
    sequence yields the frames of the shorter one first, unchanged by the
    later writes to the canvas. *)
Theorem reconstruct_prefix frames rest width height full :
  reconstruct (frames ++ rest) width height = Ok full →
  reconstruct frames width height = Ok (take (length frames) full).
Proof.
  rewrite !reconstruct_contents. unfold contentsRun.
  rewrite foldl_result_app, bind_result.
  pose proof (contentsRun_wf frames width height) as Hwf.
  unfold contentsRun in Hwf.
  destruct (foldl_result _ _ frames) as [c|]; [|done].
  destruct Hwf as (_ & _ & Hlen). simpl.
  destruct (foldl_result _ c rest) as [c'|] eqn:Hrest; [|done].
  simpl. intros [= <-].
  apply foldl_contentsStep_emitted in Hrest as [more ->].
  by rewrite <- Hlen, take_app_length.
Qed.

Lemma reconstruct_prefix_witness :
  reconstruct [redFrame] 2 2
  = Ok [(redBytes ++ redBytes ++ redBytes ++ redBytes, 5%Z)].
Proof.
  exact (reconstruct_prefix [redFrame] [bluePatch] 2 2 _
           reconstruct_red_blue).
Defined.


Lemma inPatch_false width frame i :
  inPatch width frame i = false ↔
  ∀ y, y < Dims.height (Frame.dims frame) →
       inRow (Frame.dims frame) width y i = false.
Proof.
  unfold inPatch. split.
  - intros Hex y Hy. apply not_true_is_false. intros Hrow.
    assert (existsb (λ y, inRow (Frame.dims frame) width y i)
              (seq 0 (Dims.height (Frame.dims frame))) = true);
      [|congruence].
    apply existsb_exists. exists y. split; [apply in_seq; lia | done].
  - intros Hall. apply not_true_is_false.
    intros (y & Hy%in_seq & Hrow)%existsb_exists.
    rewrite Hall in Hrow by lia. done.
Qed.

(** The canvas a frame is drawn on, when the frame before it is not to be
    restored to previous: what that frame left, with its rectangle cleared
    if its disposal is RestoreBackground. *)
Lemma disposedBytes_plain width t emitted disposal rect :
  disposal ≠ Some 3 →
  disposedBytes width
    {| c_canvas := t; c_emitted := emitted;
       c_prevDisposal := default 0 disposal; c_prevRect := Some rect;
       c_snapshot := None |}
  = Ok (if decide (disposal = Some 2) then clearRows rect width t else t).
Proof.
  intros Hne. unfold disposedBytes. simpl.
  destruct disposal as [[|[|[|[|n]]]]|]; simpl; done.
Qed.

Lemma compositeBytes_partial width height frame d t :
  partialPatch width height frame →
  length d = width * height * 4 →
  compositeBytes width height frame d = Ok t →
  (∀ y k, y < Dims.height (Frame.dims frame) →
          k < Dims.width (Frame.dims frame) * 4 →
     t !! (rowOffset (Frame.dims frame) width y + k)
     = Frame.patch frame !! (y * (Dims.width (Frame.dims frame) * 4) + k))
  ∧ (∀ i, inPatch width frame i = false → t !! i = d !! i).
Proof.
  intros (Hpart & Hp & Hw & Hh) Hlen. unfold compositeBytes.
  rewrite decide_False by done. intros Hrun.
  destruct (patchRows_spec (Frame.patch frame) (Frame.dims frame) width
              height d Hlen Hw Hh Hp) as (t' & Ht' & _ & Hrows & Hrest).
  rewrite Hrun in Ht'. injection Ht' as <-. split; [done|].
  intros i Hi. apply Hrest. by apply inPatch_false.
Qed.

(** Each frame is the frame before it, disposed, with the patch drawn over
    it.  When the frame before is not to be restored to previous, the bytes
    of the rows of the patch are those of the patch, and every other byte of
    the canvas is the byte of the previous frame, or zero if the previous
    frame is to be restored to background and the byte lies in one of the
    row spans cleared for it: for each row of its rectangle, the
    [width * 4] bytes from the left edge of the rectangle, which are the
    rectangle itself when it stays within the canvas width and run on into
    the next row when it does not. *)
Theorem next_frame_from_previous frames p q width height full :
  reconstruct (frames ++ [p; q]) width height = Ok full →
  Frame.disposalType p ≠ Some 3 →
  partialPatch width height q →
  ∃ prev next,
    full !! length frames = Some (prev, Frame.delay p)
    ∧ full !! S (length frames) = Some (next, Frame.delay q)
    ∧ (∀ y k, y < Dims.height (Frame.dims q) →
              k < Dims.width (Frame.dims q) * 4 →
         next !! (rowOffset (Frame.dims q) width y + k)
         = Frame.patch q !! (y * (Dims.width (Frame.dims q) * 4) + k))
    ∧ (∀ i, i < width * height * 4 → inPatch width q i = false →
         next !! i
         = if bool_decide (Frame.disposalType p = Some 2)
              && inPatch width p i
           then Some x00 else prev !! i).
Proof.
  rewrite reconstruct_contents. intros Hfull Hdisp Hq.
  destruct (contentsRun (frames ++ [p; q]) width height) as [cq|] eqn:Hrun;
    [|done].
  injection Hfull as <-.
  change (frames ++ [p; q]) with (frames ++ ([p] ++ [q])) in Hrun.
  rewrite app_assoc in Hrun.
  apply contentsRun_snoc_inv in Hrun as (cp & Hrunp & Hstepq & Hwfp & _).
  apply contentsRun_snoc_inv in Hrunp as (c0 & Hrun0 & Hstepp & _ & _).
  pose proof (contentsRun_wf frames width height) as Hwf0.
  rewrite Hrun0 in Hwf0. destruct Hwf0 as (_ & _ & Hlen0).
  apply contentsStep_inv in Hstepp as (dp & tp & _ & _ & ->).
  apply contentsStep_inv in Hstepq as (dq & tq & Hdq & Htq & ->).
  rewrite decide_False in Hdq, Hwfp by done.
  rewrite disposedBytes_plain in Hdq by done. injection Hdq as <-.
  pose proof (wf_canvas _ _ _ Hwfp) as Hlenp. simpl in Hlenp.
  exists tp, tq. simpl. split_and!.
  - rewrite <- Hlen0, <- app_assoc, lookup_app_r by lia.
    by rewrite Nat.sub_diag.
  - rewrite <- Hlen0, lookup_app_r by (rewrite length_app; simpl; lia).
    rewrite length_app. simpl.
    by replace (S (length (c_emitted c0)) - (length (c_emitted c0) + 1))
      with 0 by lia.
  - eapply compositeBytes_partial; [done| |done].
    case_decide; by rewrite ?length_clearRows.
  - intros i Hi Hout.
    assert (Hrest : ∀ d, length d = width * height * 4 →
              compositeBytes width height q d = Ok tq → tq !! i = d !! i).
    { intros d Hd Hrun.
      destruct (compositeBytes_partial width height q d tq Hq Hd Hrun)
        as [_ Hkeep].
      by apply Hkeep. }
    case_decide as Hback.
    + rewrite (Hrest _ ltac:(by rewrite length_clearRows) Htq).
      rewrite bool_decide_eq_true_2 by done. unfold clearRows.
      by rewrite lookup_clearRows_rows by lia.
    + rewrite (Hrest _ Hlenp Htq). by rewrite bool_decide_eq_false_2.
Qed.

Lemma next_frame_from_previous_witness :
  ∃ prev next,
    reconstruct ([] ++ [bluePatch; blueKept]) 2 2
    = Ok [(prev, 3%Z); (next, 6%Z)]
    ∧ prev = clearBytes ++ clearBytes ++ clearBytes ++ blueBytes
    ∧ next = clearBytes ++ blueBytes ++ clearBytes ++ clearBytes.
Proof.
  destruct (next_frame_from_previous [] bluePatch blueKept 2 2 _ eq_refl)
    as (prev & next & Hprev & Hnext & _ & _).
  - discriminate.
  - repeat split; simpl; lia.
  - exists prev, next. injection Hprev as <-. injection Hnext as <-.
    repeat split.
Defined.

(** Restore to previous, as a viewer sees it: after a kept frame [o], a
    frame [p] to be restored to previous and a further patch [q], the frame
    of [q] outside the rows of its patch is the frame of [o]; nothing [p]
    drew is left. *)
Theorem restored_frame_shows_earlier_frame frames o p q width height full :
  reconstruct (frames ++ [o; p; q]) width height = Ok full →
  Frame.disposalType o ≠ Some 2 → Frame.disposalType o ≠ Some 3 →
  Frame.disposalType p = Some 3 →
  partialPatch width height q →
  ∃ earlier next,
    full !! length frames = Some (earlier, Frame.delay o)
    ∧ full !! S (S (length frames)) = Some (next, Frame.delay q)
    ∧ ∀ i, inPatch width q i = false → next !! i = earlier !! i.
Proof.
  rewrite reconstruct_contents. intros Hfull Ho2 Ho3 Hp Hq.
  destruct (contentsRun (frames ++ [o; p; q]) width height) as [cq|] eqn:Hrun;
    [|done].
  injection Hfull as <-.
  change (frames ++ [o; p; q]) with (frames ++ ([o] ++ [p] ++ [q])) in Hrun.
  rewrite !app_assoc in Hrun.
  apply contentsRun_snoc_inv in Hrun as (cp & Hrunp & Hstepq & Hwfp & _).
  apply contentsRun_snoc_inv in Hrunp as (co & Hruno & Hstepp & Hwfo & _).
  apply contentsRun_snoc_inv in Hruno as (c0 & Hrun0 & Hstepo & _ & _).
  pose proof (contentsRun_wf frames width height) as Hwf0.
  rewrite Hrun0 in Hwf0. destruct Hwf0 as (_ & _ & Hlen0).
  apply contentsStep_inv in Hstepo as (do & to & _ & _ & ->).
  apply contentsStep_inv in Hstepp as (dp & tp & Hdp & _ & ->).
  apply contentsStep_inv in Hstepq as (dq & tq & Hdq & Htq & ->).
  rewrite decide_False in Hdp, Hwfo by done.
  rewrite disposedBytes_plain, decide_False in Hdp by done.
  injection Hdp as <-.
  rewrite (decide_True (P := Frame.disposalType p = Some 3)) in Hdq, Hwfp
    by done.
  pose proof (wf_canvas _ _ _ Hwfo) as Hleno. simpl in Hleno.
  pose proof (wf_canvas _ _ _ Hwfp) as Hlenp. simpl in Hlenp.
  unfold disposedBytes in Hdq. rewrite Hp in Hdq. simpl in Hdq.
  rewrite set_bytes_whole in Hdq by lia. injection Hdq as <-.
  exists to, tq. simpl. split_and!.
  - rewrite <- Hlen0, <- !app_assoc, lookup_app_r by lia.
    by rewrite Nat.sub_diag.
  - rewrite <- Hlen0, lookup_app_r by (rewrite !length_app; simpl; lia).
    rewrite !length_app. simpl.
    by replace (S (S (length (c_emitted c0)))
                - (length (c_emitted c0) + 1 + 1)) with 0 by lia.
  - by eapply compositeBytes_partial.
Qed.

Lemma restored_frame_shows_earlier_frame_witness :
  ∃ earlier next,
    reconstruct ([] ++ [redFrame; greenRestored; blueKept]) 2 2
    = Ok [(earlier, 5%Z);
          (greenBytes ++ redBytes ++ redBytes ++ redBytes, 4%Z);
          (next, 6%Z)]
    ∧ earlier = redBytes ++ redBytes ++ redBytes ++ redBytes
    ∧ next = redBytes ++ blueBytes ++ redBytes ++ redBytes.
Proof.
  destruct (restored_frame_shows_earlier_frame [] redFrame greenRestored
              blueKept 2 2 _ eq_refl)
    as (earlier & next & Hearlier & Hnext & _).
  - discriminate.
  - discriminate.
  - reflexivity.
  - repeat split; simpl; lia.
  - exists earlier, next. injection Hearlier as <-. injection Hnext as <-.
    repeat split.
Defined.



Lemma static_output_size_witness :
  ∃ calls out,
    generateStatic overOpaque
      (mkImage (Some 3) (Some 3) (Some 9) None nineCells) Up
    = (calls, Ok out)
    ∧ s_width out = 3 ∧ s_height out = 3.
Proof.
  eexists _, _. split; [reflexivity|].
  destruct (static_output_size overOpaque
              (mkImage (Some 3) (Some 3) (Some 9) None nineCells) Up _ _
              eq_refl) as (Hw & Hh & _).
  split; [exact Hw | exact Hh].
Defined.


(** ** The command front end *)

Example normalizeDirection_examples :
  normalizeDirection (Some "  LeFt ") = Some (IsDirection Left)
  ∧ normalizeDirection (Some "QUAD") = Some (IsDirection Both)
  ∧ normalizeDirection (Some "sideways") = None
  ∧ normalizeDirection (Some "") = None
  ∧ normalizeDirection (Some " Constructor") = Some (Inherited "constructor")
  ∧ isGif [Byte.x47; Byte.x49; Byte.x46; Byte.x38; Byte.x39; Byte.x61;
           Byte.x00] = true
  ∧ isGif [Byte.xc7; Byte.x49; Byte.x46; Byte.x38; Byte.x39; Byte.x61] = true
  ∧ isGif [Byte.x47; Byte.x49; Byte.x46; Byte.x38; Byte.x39] = false.
Proof. repeat split. Qed.


Lemma append_cons c s t : String c s +:+ t = String c (s +:+ t).
Proof. reflexivity. Qed.

Lemma append_empty t : "" +:+ t = t.
Proof. reflexivity. Qed.

Lemma allWhiteSpace_cons c s :
  allWhiteSpace (String c s) ↔ isWhiteSpace c = true ∧ allWhiteSpace s.
Proof.
  unfold allWhiteSpace. cbn [String.list_ascii_of_string].
  by rewrite Forall_cons.
Qed.

Lemma trimStart_white w : allWhiteSpace w → trimStart w = "".
Proof.
  induction w as [|c w IH]; [done|].
  intros [Hc Hw]%allWhiteSpace_cons. simpl. rewrite Hc. by apply IH.
Qed.

Lemma trimEnd_white w : allWhiteSpace w → trimEnd w = "".
Proof.
  induction w as [|c w IH]; [done|].
  intros [Hc Hw]%allWhiteSpace_cons. simpl. by rewrite IH, Hc.
Qed.

Lemma trimStart_white_app pre s :
  allWhiteSpace pre → trimStart (pre +:+ s) = trimStart s.
Proof.
  induction pre as [|c pre IH]; [done|].
  intros [Hc Hw]%allWhiteSpace_cons. rewrite append_cons. simpl.
  rewrite Hc. by apply IH.
Qed.

Lemma trimEnd_app_white s post :
  allWhiteSpace post → trimEnd (s +:+ post) = trimEnd s.
Proof.
  intros Hpost. induction s as [|c s IH].
  - rewrite append_empty. by apply trimEnd_white.
  - rewrite append_cons. simpl. by rewrite IH.
Qed.

Lemma trimStart_app_white s post :
  allWhiteSpace post →
  trimStart (s +:+ post)
  = match trimStart s with
    | "" => ""
    | t => t +:+ post
    end.
Proof.
  intros Hpost. induction s as [|c s IH].
  - rewrite append_empty. by apply trimStart_white.
  - rewrite append_cons. simpl. by destruct (isWhiteSpace c).
Qed.

(** White space around the text does not count. *)
Lemma trim_padded pre s post :
  allWhiteSpace pre → allWhiteSpace post →
  trim (pre +:+ s +:+ post) = trim s.
Proof.
  intros Hpre Hpost. unfold trim.
  rewrite trimStart_white_app, trimStart_app_white by done.
  destruct (trimStart s) as [|c t]; [done|].
  by rewrite trimEnd_app_white.
Qed.

Lemma isWhiteSpace_lowerChar c : isWhiteSpace (lowerChar c) = isWhiteSpace c.
Proof. by destruct c as [[] [] [] [] [] [] [] []]. Qed.

Lemma toLowerCase_trimStart s :
  toLowerCase (trimStart s) = trimStart (toLowerCase s).
Proof.
  induction s as [|c s IH]; [done|]. simpl.
  rewrite isWhiteSpace_lowerChar. by destruct (isWhiteSpace c).
Qed.

Lemma toLowerCase_trimEnd s :
  toLowerCase (trimEnd s) = trimEnd (toLowerCase s).
Proof.
  induction s as [|c s IH]; [done|]. simpl.
  rewrite <- IH, isWhiteSpace_lowerChar.
  destruct (trimEnd s); [by destruct (isWhiteSpace c) | done].
Qed.

Lemma toLowerCase_trim s : toLowerCase (trim s) = trim (toLowerCase s).
Proof. unfold trim. by rewrite toLowerCase_trimEnd, toLowerCase_trimStart. Qed.

Lemma toLowerCase_idemp s : toLowerCase (toLowerCase s) = toLowerCase s.
Proof.
  induction s as [|c s IH]; [done|]. simpl. rewrite IH. f_equal.
  by destruct c as [[] [] [] [] [] [] [] []].
Qed.

(** The key looked up for a text, the empty text included. *)
Lemma normalizeDirection_key v :
  normalizeDirection (Some v) = getAlias (toLowerCase (trim v)).
Proof. by destruct v. Qed.

(** The direction option is read without regard to letter case or to white
    space around it. *)
Theorem normalizeDirection_insensitive pre post s s' :
  allWhiteSpace pre → allWhiteSpace post →
  toLowerCase s = toLowerCase s' →
  normalizeDirection (Some (pre +:+ s +:+ post))
  = normalizeDirection (Some s').
Proof.
  intros Hpre Hpost Hcase. rewrite !normalizeDirection_key.
  rewrite trim_padded by done.
  by rewrite !toLowerCase_trim, Hcase.
Qed.

Lemma normalizeDirection_insensitive_witness :
  normalizeDirection (Some (" " +:+ "BoTToM" +:+ "  "))
  = normalizeDirection (Some "bottom").
Proof.
  apply (normalizeDirection_insensitive " " "  " "BoTToM" "bottom").
  - repeat constructor.
  - repeat constructor.
  - reflexivity.
Defined.

(** The name of every direction is an alias of that direction, in any
    letter case and with any white space around it. *)
Theorem direction_names_recognised pre post s d :
  allWhiteSpace pre → allWhiteSpace post →
  toLowerCase s = directionName d →
  normalizeDirection (Some (pre +:+ s +:+ post)) = Some (IsDirection d).
Proof.
  intros Hpre Hpost Hname. rewrite normalizeDirection_key.
  rewrite trim_padded, toLowerCase_trim, Hname by done.
  by destruct d.
Qed.

Lemma direction_names_recognised_witness :
  normalizeDirection (Some ("  " +:+ "Right" +:+ " "))
  = Some (IsDirection Right).
Proof.
  apply (direction_names_recognised "  " " " "Right" Right).
  - repeat constructor.
  - repeat constructor.
  - reflexivity.
Defined.


Lemma hasUpper_toLowerCase s : hasUpper (toLowerCase s) = false.
Proof.
  induction s as [|c s IH]; [done|]. simpl. rewrite IH, orb_false_r.
  by destruct c as [[] [] [] [] [] [] [] []].
Qed.

Lemma actionDirection_key v :
  actionDirection (Some v)
  = match getAlias (toLowerCase (trim v)) with
    | Some a => Some a
    | None => if decide (v = "") then Some (IsDirection Left) else None
    end.
Proof.
  unfold actionDirection. rewrite normalizeDirection_key.
  destruct v as [|c v]; [done|].
  by destruct (getAlias _).
Qed.

(** The command goes on with something that is not a direction exactly when
    the text of the option, trimmed and in lower case, is [constructor] or
    [__proto__]: these are found on the prototype of the alias table, so no
    invalid-direction notice is given for them. *)
Theorem inherited_names_pass_as_directions optionDirection k :
  actionDirection optionDirection = Some (Inherited k)
  ↔ ∃ v, optionDirection = Some v
         ∧ toLowerCase (trim v) = k
         ∧ (k = "constructor" ∨ k = "__proto__").
Proof.
  split.
  - destruct optionDirection as [v|]; [|done].
    rewrite actionDirection_key.
    destruct (getAlias (toLowerCase (trim v))) as [a|] eqn:Halias;
      [|by case_decide].
    intros [= ->]. exists v. split; [done|].
    unfold getAlias in Halias.
    destruct (ownProperty directionAliases _); [done|].
    case_decide as Hproto; [|done]. injection Halias as Hk.
    split; [done|]. rewrite Hk in Hproto.
    pose proof (hasUpper_toLowerCase (trim v)) as Hlow. rewrite Hk in Hlow.
    unfold objectPrototypeKeys in Hproto.
    rewrite !elem_of_cons, elem_of_nil in Hproto.
    repeat (destruct Hproto as [-> | Hproto]; [auto; discriminate|]).
    done.
  - intros (v & -> & Hkey & Hk). rewrite actionDirection_key, Hkey.
    by destruct Hk as [-> | ->].
Qed.

(** An option that is absent or empty selects the left direction, while one
    made of white space only is answered with the invalid-direction
    notice. *)
Theorem blank_direction_option v :
  allWhiteSpace v →
  actionDirection None = Some (IsDirection Left)
  ∧ actionDirection (Some v)
    = if decide (v = "") then Some (IsDirection Left) else None.
Proof.
  intros Hv. split; [done|]. rewrite actionDirection_key.
  unfold trim. by rewrite trimStart_white.
Qed.

Lemma blank_direction_option_witness :
  actionDirection (Some "") = Some (IsDirection Left)
  ∧ actionDirection (Some " ") = None.
Proof.
  split.
  - apply (blank_direction_option ""). constructor.
  - apply (blank_direction_option " "). repeat constructor.
Defined.

(** *** The format sniff *)

(** The sniff looks at the first six bytes only. *)
Theorem isGif_first_six buffer1 buffer2 :
  take 6 buffer1 = take 6 buffer2 → isGif buffer1 = isGif buffer2.
Proof.
  intros Htake. unfold isGif, asciiSlice. rewrite Htake.
  apply (f_equal length) in Htake. rewrite !length_take in Htake.
  replace (length buffer1 <? 6) with (length buffer2 <? 6); [done|].
  destruct (Nat.ltb_spec (length buffer1) 6),
           (Nat.ltb_spec (length buffer2) 6); lia || done.
Qed.

Lemma isGif_first_six_witness :
  isGif [Byte.x47; Byte.x49; Byte.x46; Byte.x38; Byte.x39; Byte.x61;
         Byte.x01; Byte.x02]
  = isGif [Byte.x47; Byte.x49; Byte.x46; Byte.x38; Byte.x39; Byte.x61].
Proof. apply isGif_first_six. reflexivity. Defined.


(** ** Data URLs *)

Lemma length_append s t :
  String.length (s +:+ t) = String.length s + String.length t.
Proof. induction s as [|c s IH]; [done|]. rewrite append_cons. simpl. lia. Qed.

Lemma length_toLowerCase s : String.length (toLowerCase s) = String.length s.
Proof. induction s as [|c s IH]; [done|]. simpl. by rewrite IH. Qed.

Lemma substring_append s t :
  String.substring 0 (String.length s) (s +:+ t) = s.
Proof.
  induction s as [|c s IH]; [by destruct t|].
  rewrite append_cons. simpl. by rewrite IH.
Qed.

Lemma substring_full s : String.substring 0 (String.length s) s = s.
Proof. induction s as [|c s IH]; [done|]. simpl. by rewrite IH. Qed.

Lemma append_assoc_string (s t u : string) :
  (s +:+ t) +:+ u = s +:+ t +:+ u.
Proof.
  induction s as [|c s IH]; [done|]. rewrite !append_cons. by rewrite IH.
Qed.

Lemma lowerChar_idemp c : lowerChar (lowerChar c) = lowerChar c.
Proof. by destruct c as [[] [] [] [] [] [] [] []]. Qed.

Lemma sameChar_lowerChar c l : sameChar (lowerChar c) l = sameChar c l.
Proof. unfold sameChar. by rewrite lowerChar_idemp. Qed.

Lemma accepts_lowerChar l c :
  accepts (NoneOf l) (lowerChar c) = accepts (NoneOf l) c.
Proof.
  simpl. f_equal. induction l as [|a l IH]; [done|]. simpl.
  by rewrite sameChar_lowerChar, IH.
Qed.

Lemma allChars_toLowerCase l s :
  allChars (NoneOf l) (toLowerCase s) = allChars (NoneOf l) s.
Proof.
  induction s as [|c s IH]; [done|].
  cbn [toLowerCase allChars]. by rewrite accepts_lowerChar, IH.
Qed.

Lemma allChars_append cs s t :
  allChars cs (s +:+ t) = allChars cs s && allChars cs t.
Proof.
  induction s as [|c s IH]; [done|]. rewrite append_cons.
  cbn [allChars]. by rewrite IH, andb_assoc.
Qed.

Lemma sameChar_comma c : sameChar c "," = true → c = ","%char.
Proof.
  unfold sameChar. rewrite bool_decide_eq_true.
  by destruct c as [[] [] [] [] [] [] [] []].
Qed.

Lemma sameChar_lower c l : lowerChar c = lowerChar l → sameChar c l = true.
Proof. intros Hc. unfold sameChar. by rewrite bool_decide_eq_true. Qed.

(** *** The matcher *)

Lemma matcher_literally lit : ∀ text tail pos caps k,
  toLowerCase text = toLowerCase lit →
  matcher (literally lit) (mkState pos (text +:+ tail) caps) k
  = k (mkState (pos + String.length text) tail caps).
Proof.
  induction lit as [|l lit IH]; intros [|c text] tail pos caps k Hlow;
    try done.
  - simpl. by rewrite Nat.add_0_r.
  - simpl in Hlow. injection Hlow as Hc Hlow.
    rewrite append_cons.
    cbn [literally matcher remaining position captures accepts].
    rewrite sameChar_lower by done. rewrite IH by done.
    cbn [String.length]. by rewrite Nat.add_succ_r.
Qed.

Lemma matcher_literally_inv lit : ∀ x k m,
  matcher (literally lit) x k = Some m →
  ∃ text tail,
    remaining x = text +:+ tail
    ∧ toLowerCase text = toLowerCase lit
    ∧ k (mkState (position x + String.length text) tail (captures x))
      = Some m.
Proof.
  induction lit as [|l lit IH]; intros [pos s caps] k m Hm.
  - exists "", s. simpl in *. by rewrite Nat.add_0_r.
  - cbn [literally matcher remaining position captures accepts] in Hm.
    destruct s as [|c s]; [done|].
    destruct (sameChar c l) eqn:Hc; [|done].
    apply IH in Hm as (text & tail & Hs & Hlow & Hk). simpl in Hs, Hk.
    exists (String c text), tail. rewrite append_cons, Hs. simpl.
    unfold sameChar in Hc. apply bool_decide_eq_true in Hc.
    rewrite Hc, Hlow. rewrite Nat.add_succ_r. done.
Qed.

(** A greedy run stops where the set ends, when what follows cannot start
    inside it. *)
Lemma many_greedy cs k :
  (∀ y c s', remaining y = String c s' → accepts cs c = true → k y = None) →
  ∀ pre post pos caps,
    allChars cs pre = true → stopsAt cs post →
    many cs pos (pre +:+ post) caps k
    = k (mkState (pos + String.length pre) post caps).
Proof.
  intros Hk pre post. induction pre as [|c pre IH]; intros pos caps Hpre Hpost.
  - rewrite append_empty. simpl. rewrite Nat.add_0_r.
    destruct post as [|c post]; [done|]. simpl.
    by rewrite (Hpost c post).
  - rewrite append_cons. cbn [allChars] in Hpre.
    apply andb_true_iff in Hpre as [Hc Hpre].
    cbn [many]. rewrite Hc, IH by done.
    cbn [String.length]. rewrite Nat.add_succ_r. simpl.
    destruct (k _) eqn:Hres; [done|].
    by rewrite (Hk _ c (pre +:+ post)).
Qed.

(** A greedy run before the end of the input takes all of it, or fails. *)
Lemma many_to_end cs k :
  (∀ y, remaining y ≠ "" → k y = None) →
  ∀ s pos caps,
    many cs pos s caps k
    = if allChars cs s then k (mkState (pos + String.length s) "" caps)
      else None.
Proof.
  intros Hk s. induction s as [|c s IH]; intros pos caps.
  - simpl. by rewrite Nat.add_0_r.
  - cbn [many allChars String.length]. destruct (accepts cs c); simpl.
    + rewrite IH, Nat.add_succ_r. simpl.
      destruct (allChars cs s); [destruct (k _); [done|] |]; by apply Hk.
    + by apply Hk.
Qed.

Lemma span_exists cs s :
  ∃ pre post, s = pre +:+ post ∧ allChars cs pre = true ∧ stopsAt cs post.
Proof.
  induction s as [|c s (pre & post & -> & Hpre & Hpost)].
  - by exists "", "".
  - destruct (accepts cs c) eqn:Hc.
    + exists (String c pre), post. rewrite append_cons. simpl.
      by rewrite Hc, Hpre.
    + exists "", (String c (pre +:+ post)). do 2 (split; [done|]).
      by intros ?? [= <- <-].
Qed.


(** *** The pattern *)

Lemma matcher_Cat r1 r2 x k :
  matcher (Cat r1 r2) x k = matcher r1 x (λ y, matcher r2 y k).
Proof. reflexivity. Qed.

Lemma execFrom_later r s : ∀ pos,
  execFrom (Cat BeginInput r) (S pos) s = None.
Proof. induction s as [|c s IH]; intros pos; simpl; [done | apply IH]. Qed.

Lemma exec_begin r s :
  exec (Cat BeginInput r) s = matcher r (mkState 0 s (λ _, None)) Some.
Proof.
  unfold exec. destruct s as [|c s]; simpl.
  - by destruct (matcher r _ _).
  - destruct (matcher r _ _); [done|]. apply execFrom_later.
Qed.

(** The optional first group takes the longest run it can. *)
Lemma optional_run cs n k x pre post :
  (∀ y c s', remaining y = String c s' → accepts cs c = true → k y = None) →
  remaining x = pre +:+ post → allChars cs pre = true → stopsAt cs post →
  ∃ caps,
    matcher (Maybe (Capture n (Cat (Char cs) (Many cs)))) x k
    = k (mkState (position x + String.length pre) post caps)
    ∧ ∀ i, i ≠ n → caps i = captures x i.
Proof.
  intros Hk Hx Hpre Hpost. destruct x as [pos s caps0]. simpl in Hx. subst s.
  destruct pre as [|c pre].
  - exists caps0. split; [|done]. rewrite append_empty.
    cbn [matcher remaining position captures String.length].
    rewrite Nat.add_0_r.
    destruct post as [|c post]; [done|]. by rewrite (Hpost c post).
  - cbn [allChars] in Hpre. apply andb_true_iff in Hpre as [Hc Hpre].
    exists (setCapture n (String c pre) caps0). split.
    + rewrite append_cons.
      cbn [matcher remaining position captures]. rewrite Hc.
      rewrite many_greedy; [|clear -Hk|done..].
      * cbn [position remaining captures String.length].
        rewrite decide_False by lia.
        replace (S pos + String.length pre - pos)
          with (String.length (String c pre)) by (simpl; lia).
        rewrite <- append_cons, substring_append, Nat.add_succ_r.
        destruct (k _) eqn:Hres; [done|].
        by rewrite (Hk _ c (pre +:+ post)).
      * intros y c' s' Hy Hc'. case_decide; [done|].
        by apply (Hk _ c' s').
    + intros i Hi. unfold setCapture. by rewrite decide_False.
Qed.

(** The third group and the end of the input. *)
Lemma rest_to_end x :
  matcher (Cat (Capture 3 (Many AnyButLineEnd)) EndInput) x Some
  = if allChars AnyButLineEnd (remaining x)
    then Some (mkState (position x + String.length (remaining x)) ""
                 (setCapture 3 (remaining x) (captures x)))
    else None.
Proof.
  destruct x as [pos s caps]. cbn [matcher remaining position captures].
  rewrite many_to_end.
  - destruct (allChars _ s); [|done].
    cbn [remaining position captures]. rewrite decide_True by done.
    by rewrite Nat.add_comm, Nat.add_sub, substring_full, Nat.add_comm.
  - intros y Hy. cbn [remaining]. by rewrite decide_False.
Qed.

Lemma dataUrlTail_rejects y c s' :
  remaining y = String c s' → accepts notSeparator c = true →
  matcher dataUrlTail y Some = None.
Proof.
  intros Hy Hc. simpl in Hc. rewrite orb_false_r in Hc.
  apply negb_true_iff, orb_false_iff in Hc as [Hsemi Hcomma].
  unfold dataUrlTail.
  cbn [matcher literally remaining position captures accepts].
  by rewrite Hy, Hsemi, Hcomma.
Qed.

Lemma marker_length marker :
  toLowerCase marker = ";base64" → String.length marker = 7.
Proof.
  intros Hm. by rewrite <- length_toLowerCase, Hm.
Qed.

Lemma marker_stops marker data :
  base64Marker marker → stopsAt notSeparator (marker +:+ "," +:+ data).
Proof.
  intros [-> | Hm] c s' Heq.
  - rewrite append_empty, append_cons in Heq. by injection Heq as <- _.
  - destruct marker as [|c' marker]; [done|].
    rewrite append_cons in Heq. injection Heq as <- _.
    simpl in Hm. injection Hm as Hc _. simpl.
    unfold sameChar at 1. by rewrite Hc.
Qed.

Lemma dataUrlTail_match x marker data :
  remaining x = marker +:+ "," +:+ data → base64Marker marker →
  payload (matcher dataUrlTail x Some)
  = if allChars AnyButLineEnd data
    then Some (if decide (marker = "") then captures x 2 else Some marker,
               Some data)
    else None.
Proof.
  intros Hx Hmarker. destruct x as [pos s caps]. simpl in Hx. subst s.
  unfold dataUrlTail.
  remember (Cat (Capture 3 (Many AnyButLineEnd)) EndInput) as rest eqn:Hrest.
  cbn [matcher]. cbn [position captures remaining].
  destruct Hmarker as [-> | Hm].
  - rewrite append_empty, append_cons, append_empty.
    cbn [literally matcher remaining position captures accepts].
    replace (sameChar "," ";") with false by done.
    replace (sameChar "," ",") with true by done.
    rewrite Hrest, rest_to_end. cbn [remaining position captures].
    by destruct (allChars _ data).
  - rewrite matcher_literally by done.
    cbn [position remaining captures].
    rewrite (marker_length marker Hm), decide_False by lia.
    rewrite append_cons, append_empty.
    cbn [matcher remaining position captures accepts].
    replace (sameChar "," ",") with true by done.
    rewrite Hrest, rest_to_end. cbn [remaining position captures].
    replace (pos + 7 - pos) with (String.length marker)
      by (rewrite (marker_length marker Hm); lia).
    rewrite <- (append_empty data), <- (append_cons "," "" data).
    rewrite substring_append.
    destruct marker as [|c marker]; [done|].
    rewrite decide_False by done.
    destruct (allChars _ _); [done|].
    rewrite append_cons. simpl in Hm. injection Hm as Hc _.
    unfold sameChar. by rewrite Hc.
Qed.

Lemma dataUrlTail_inv x m :
  matcher dataUrlTail x Some = Some m →
  ∃ marker data,
    remaining x = marker +:+ "," +:+ data
    ∧ base64Marker marker
    ∧ allChars AnyButLineEnd data = true.
Proof.
  destruct x as [pos s caps]. unfold dataUrlTail.
  remember (Cat (Capture 3 (Many AnyButLineEnd)) EndInput) as rest eqn:Hrest.
  cbn [matcher]. cbn [position remaining captures].
  destruct (matcher (literally ";base64") _ _) as [m'|] eqn:Honce.
  - intros [= ->].
    apply matcher_literally_inv in Honce as (marker & tail & Hs & Hm & Hk).
    cbn [position remaining captures] in Hs, Hk.
    case_decide; [done|].
    destruct tail as [|c data]; [done|].
    cbn [matcher remaining position captures accepts] in Hk.
    destruct (sameChar c ",") eqn:Hc; [|done].
    apply sameChar_comma in Hc as ->.
    rewrite Hrest, rest_to_end in Hk. cbn [remaining] in Hk.
    destruct (allChars _ data) eqn:Hdata; [|done].
    exists marker, data. rewrite append_cons, append_empty.
    split; [done|]. by split; [right|].
  - destruct s as [|c data]; [done|].
    cbn [matcher remaining position captures accepts].
    destruct (sameChar c ",") eqn:Hc; [|done].
    apply sameChar_comma in Hc as ->.
    rewrite Hrest, rest_to_end. cbn [remaining].
    destruct (allChars _ data) eqn:Hdata; [|done]. intros _.
    exists "", data. split; [done|]. by split; [left|].
Qed.

Lemma dataUrlPattern_tail :
  dataUrlPattern
  = Cat BeginInput
      (Cat (literally "data:")
         (Cat (Maybe (Capture 1 (Cat (Char notSeparator)
                                    (Many notSeparator))))
            dataUrlTail)).
Proof. reflexivity. Qed.

(** What the pattern captures in a text of the accepted shape. *)
Lemma exec_dataUrl_shape scheme media marker data :
  toLowerCase scheme = "data:" →
  allChars notSeparator media = true →
  base64Marker marker →
  payload (exec dataUrlPattern (scheme +:+ media +:+ marker +:+ "," +:+ data))
  = if allChars AnyButLineEnd data
    then Some (if decide (marker = "") then None else Some marker, Some data)
    else None.
Proof.
  intros Hscheme Hmedia Hmarker.
  rewrite dataUrlPattern_tail, exec_begin, matcher_Cat.
  rewrite matcher_literally by done. cbv beta. rewrite matcher_Cat.
  edestruct (optional_run notSeparator 1
               (λ y, matcher dataUrlTail y Some)
               (mkState (0 + String.length scheme)
                  (media +:+ marker +:+ "," +:+ data) (λ _, None))
               media (marker +:+ "," +:+ data))
    as (caps & -> & Hcaps);
    [apply dataUrlTail_rejects | done | done | by apply marker_stops |].
  rewrite (dataUrlTail_match _ marker data) by done.
  cbn [captures]. by rewrite Hcaps.
Qed.

(** Only texts of that shape match the pattern. *)
Lemma exec_dataUrl_inv s m :
  exec dataUrlPattern s = Some m →
  ∃ scheme media marker data,
    s = scheme +:+ media +:+ marker +:+ "," +:+ data
    ∧ toLowerCase scheme = "data:"
    ∧ allChars notSeparator media = true
    ∧ base64Marker marker
    ∧ allChars AnyButLineEnd data = true.
Proof.
  rewrite dataUrlPattern_tail, exec_begin, matcher_Cat. intros Hm.
  apply matcher_literally_inv in Hm as (scheme & tail & Hs & Hscheme & Hm).
  cbn [remaining position captures] in Hs, Hm. rewrite matcher_Cat in Hm.
  destruct (span_exists notSeparator tail)
    as (media & post & -> & Hmedia & Hpost).
  edestruct (optional_run notSeparator 1
               (λ y, matcher dataUrlTail y Some)
               (mkState (0 + String.length scheme) (media +:+ post)
                  (λ _, None))
               media post)
    as (caps & Hrun & _);
    [apply dataUrlTail_rejects | done..|].
  rewrite Hrun in Hm.
  apply dataUrlTail_inv in Hm as (marker & data & Hpost' & Hmarker & Hdata).
  cbn [remaining] in Hpost'. subst post.
  by exists scheme, media, marker, data.
Qed.


Lemma allChars_notComma s :
  allChars notSeparator s = true → allChars notComma s = true.
Proof.
  induction s as [|c s IH]; [done|]. cbn [allChars].
  rewrite !andb_true_iff. intros [Hc Hs]. split; [|by apply IH].
  simpl in *. by destruct (sameChar c ";"), (sameChar c ",").
Qed.

(** The comma that separates the payload is the first one of the text. *)
Lemma first_comma a' : ∀ a b b',
  allChars notComma a' = true →
  a +:+ "," +:+ b = a' +:+ "," +:+ b' → ∃ t, b' = t +:+ b.
Proof.
  induction a' as [|c' a' IH]; intros [|c a] b b' Ha' Heq;
    rewrite ?append_cons, ?append_empty in Heq.
  - injection Heq as <-. by exists "".
  - injection Heq as -> <-. exists (a +:+ ","). by rewrite append_assoc_string.
  - injection Heq as <- _. done.
  - injection Heq as _ Heq. cbn [allChars] in Ha'.
    apply andb_true_iff in Ha' as [_ Ha'].
    by apply (IH a b b' Ha').
Qed.

Lemma parseDataUrl_payload base64Decode percentDecode dataUrl :
  parseDataUrl base64Decode percentDecode dataUrl
  = match payload (exec dataUrlPattern dataUrl) with
    | None => Failed InvalidDataUrl
    | Some (Some (String _ _), data) => Got (base64Decode (default "" data))
    | Some (_, data) =>
        match percentDecode (default "" data) with
        | Some buffer => Got buffer
        | None => Failed URIError
        end
    end.
Proof.
  unfold parseDataUrl. destruct (exec _ _) as [m|]; [|done]. simpl.
  by destruct (captures m 2) as [[|]|].
Qed.

Lemma startsWith_append prefix : ∀ a rest,
  String.length a = String.length prefix →
  startsWith (a +:+ rest) prefix = bool_decide (a = prefix).
Proof.
  induction prefix as [|p prefix IH]; intros [|c a] rest Hlen; try done.
  rewrite append_cons. cbn [startsWith]. injection Hlen as Hlen.
  rewrite IH by done.
  repeat case_bool_decide; simplify_eq; done.
Qed.

(** Among texts whose code units are all below 256: a data URL made of the
    scheme in any letter case, a media type without semicolon or comma, the
    base64 marker in any letter case or none, a comma and a payload without
    line feed or carriage return is accepted: with the marker the payload
    is decoded as base64, without it percent-decoded.  (Beyond these code
    units the dot of the pattern also refuses the line and paragraph
    separators, which such texts cannot contain.) *)
Theorem parseDataUrl_accepted base64Decode percentDecode
    scheme media marker data :
  toLowerCase scheme = "data:" →
  allChars notSeparator media = true →
  base64Marker marker →
  allChars AnyButLineEnd data = true →
  parseDataUrl base64Decode percentDecode
    (scheme +:+ media +:+ marker +:+ "," +:+ data)
  = if decide (marker = "") then
      match percentDecode data with
      | Some buffer => Got buffer
      | None => Failed URIError
      end
    else Got (base64Decode data).
Proof.
  intros Hscheme Hmedia Hmarker Hdata.
  rewrite parseDataUrl_payload, exec_dataUrl_shape, Hdata by done.
  destruct marker as [|c marker]; [done|].
  by rewrite decide_False.
Qed.

Lemma parseDataUrl_accepted_witness :
  parseDataUrl String.list_byte_of_string (λ _, None) "DATA:image/gif;Base64,R0lG"
  = Got (String.list_byte_of_string "R0lG").
Proof.
  apply (parseDataUrl_accepted _ _ "DATA:" "image/gif" ";Base64" "R0lG");
    [reflexivity | reflexivity | by right | reflexivity].
Defined.

(** Nothing else is accepted: a text that is not answered with the
    invalid-data-url error has that shape. *)
Theorem parseDataUrl_rejects_other_shapes base64Decode percentDecode dataUrl :
  parseDataUrl base64Decode percentDecode dataUrl ≠ Failed InvalidDataUrl →
  ∃ scheme media marker data,
    dataUrl = scheme +:+ media +:+ marker +:+ "," +:+ data
    ∧ toLowerCase scheme = "data:"
    ∧ allChars notSeparator media = true
    ∧ base64Marker marker
    ∧ allChars AnyButLineEnd data = true.
Proof.
  unfold parseDataUrl.
  destruct (exec dataUrlPattern dataUrl) as [m|] eqn:Hm; [|done].
  intros _. by apply (exec_dataUrl_inv dataUrl m).
Qed.

Lemma parseDataUrl_rejects_other_shapes_witness :
  ∃ scheme media marker data,
    "data:text/plain,a%20b" = scheme +:+ media +:+ marker +:+ "," +:+ data
    ∧ toLowerCase scheme = "data:"
    ∧ allChars notSeparator media = true
    ∧ base64Marker marker
    ∧ allChars AnyButLineEnd data = true.
Proof.
  apply (parseDataUrl_rejects_other_shapes (λ _, []) (λ _, None)).
  vm_compute. discriminate.
Defined.



(** A line feed or a carriage return anywhere after a comma makes the text
    an invalid data URL. *)
Theorem parseDataUrl_rejects_line_break base64Decode percentDecode
    head data :
  allChars AnyButLineEnd data = false →
  parseDataUrl base64Decode percentDecode (head +:+ "," +:+ data)
  = Failed InvalidDataUrl.
Proof.
  intros Hbreak. unfold parseDataUrl.
  destruct (exec dataUrlPattern _) as [m|] eqn:Hm; [exfalso|done].
  apply exec_dataUrl_inv in Hm
    as (scheme & media & marker & data' & Heq & Hscheme & Hmedia
        & Hmarker & Hdata).
  rewrite <- (append_assoc_string scheme media),
    <- (append_assoc_string (scheme +:+ media) marker) in Heq.
  apply first_comma in Heq as [t ->].
  - rewrite allChars_append, Hbreak, andb_false_r in Hdata. done.
  - rewrite !allChars_append, !andb_true_iff. split; [split|].
    + unfold notComma. by rewrite <- allChars_toLowerCase, Hscheme.
    + by apply allChars_notComma.
    + destruct Hmarker as [-> | Hmarker]; [done|].
      unfold notComma. by rewrite <- allChars_toLowerCase, Hmarker.
Qed.

Lemma parseDataUrl_rejects_line_break_witness :
  parseDataUrl (λ _, []) (λ _, Some [])
    ("data:image/png;base64" +:+ "," +:+ String "010" "")
  = Failed InvalidDataUrl.
Proof.
  apply (parseDataUrl_rejects_line_break _ _
           "data:image/png;base64" (String "010" "")).
  reflexivity.
Defined.

(** A data URL whose scheme is written in another letter case than
    [data:] is one the pattern of [parseDataUrl] accepts, yet
    [fetchImageBuffer] never hands it to [parseDataUrl]: its test for the
    scheme is sensitive to case, and the text is requested over HTTP. *)
Theorem fetchImageBuffer_scheme_case base64Decode percentDecode httpGet
    scheme media marker data :
  toLowerCase scheme = "data:" → scheme ≠ "data:" →
  allChars notSeparator media = true →
  base64Marker marker →
  allChars AnyButLineEnd data = true →
  let src := scheme +:+ media +:+ marker +:+ "," +:+ data in
  parseDataUrl base64Decode percentDecode src ≠ Failed InvalidDataUrl
  ∧ fetchImageBuffer base64Decode percentDecode httpGet src
    = match httpGet src with
      | Some buffer => Got buffer
      | None => Failed HttpError
      end.
Proof.
  intros Hscheme Hcase Hmedia Hmarker Hdata src. split.
  - unfold src. rewrite parseDataUrl_payload, exec_dataUrl_shape by done.
    rewrite Hdata. case_decide; simpl.
    + by destruct (percentDecode data).
    + by destruct marker.
  - unfold fetchImageBuffer, src.
    rewrite startsWith_append
      by (by rewrite <- (length_toLowerCase scheme), Hscheme).
    by rewrite bool_decide_eq_false_2.
Qed.

Lemma fetchImageBuffer_scheme_case_witness :
  parseDataUrl (λ _, []) (λ _, Some []) "Data:image/gif;base64,R0lG"
  ≠ Failed InvalidDataUrl
  ∧ fetchImageBuffer (λ _, []) (λ _, Some []) (λ _, None)
      "Data:image/gif;base64,R0lG"
    = Failed HttpError.
Proof.
  exact (fetchImageBuffer_scheme_case (λ _, []) (λ _, Some []) (λ _, None)
           "Data:" "image/gif" ";base64" "R0lG"
           eq_refl ltac:(discriminate) eq_refl (or_intror eq_refl) eq_refl).
Defined.
